(** * job_scheduler.py: the persisted queue/history model and its transactions

    A shallow embedding of [src/job_scheduler.py].  Every operation of the
    script is one (or, for [run_next_job], several) lock-protected
    load / mutate / save transaction on [jobs.json]; the lock serialises the
    transactions, so each one is a function on the contents of that file.
    The operating system (available memory, [subprocess.Popen],
    [psutil.Process]) enters as explicit parameters. *)

From stdpp Require Import base option list strings gmap.
From Stdlib Require Import ZArith Lia Ascii.

(** ** Data model *)

(** [class Job]: the eight attributes that [to_dict] writes and [from_dict]
    reads back.  [status] is a Python string, [pid] is an int or [None]. *)
Record Job : Type := mkJob {
  job_id : Z;
  user : string;
  command : string;
  priority : Z;
  memory : Z;
  compute : Z;
  status : string;
  pid : option Z
}.

(** [Job.__init__]: a new job is ['queued'] and has no pid. *)
Definition Job_init (job_id : Z) (user command : string)
    (priority memory compute : Z) : Job :=
  mkJob job_id user command priority memory compute "queued" None.

(** [job.status = s] and [job.pid = p] *)
Definition set_status (s : string) (j : Job) : Job :=
  mkJob (job_id j) (user j) (command j) (priority j) (memory j) (compute j)
        s (pid j).

Definition set_pid (p : option Z) (j : Job) : Job :=
  mkJob (job_id j) (user j) (command j) (priority j) (memory j) (compute j)
        (status j) p.

(** The document: [{'job_queue': [...], 'job_history': [...]}]. *)
Record Store : Type := mkStore {
  job_queue : list Job;
  job_history : list Job
}.

(** [jobs.json] on disk; [None] when the file does not exist. *)
Definition jobs_file : Type := option Store.

(** [load_jobs]: a missing file is an empty queue and an empty history.
    Every call builds fresh [Job] objects, so queue and history entries
    never alias each other across a load. *)
Definition load_jobs (f : jobs_file) : Store :=
  match f with
  | None => mkStore [] []
  | Some s => s
  end.

(** [save_jobs]: full overwrite. *)
Definition save_jobs (q h : list Job) : jobs_file := Some (mkStore q h).

(** ** submit *)

(** [submit_job]: the id is [len(job_history) + 1]; the job goes to the tail
    of both collections. *)
Definition submit_job (user command : string) (priority memory compute : Z)
    (f : jobs_file) : jobs_file :=
  let s := load_jobs f in
  let job_id := (Z.of_nat (length (job_history s)) + 1)%Z in
  let job := Job_init job_id user command priority memory compute in
  save_jobs (job_queue s ++ [job]) (job_history s ++ [job]).

(** ** run *)

(** What [subprocess.Popen(job.command, shell=True)] does: it returns a
    process with a pid, or raises (fork or exec of the shell failed). *)
Inductive popen_result : Type :=
  | Spawned (pid : Z)
  | PopenRaises.

(** How the first transaction of [run_next_job] ends. *)
Inductive run_outcome : Type :=
  | QueueEmpty
  | OnHold (job : Job)
  | Dispatched (job : Job)
  | LaunchRaised (job : Job).

Record run_result : Type := mkRun {
  file_after : jobs_file;
  outcome : run_outcome;
  popen_calls : list string
}.

(** [[j for j in job_history if j.job_id != job.job_id]] then
    [job_history.append(job)] *)
Definition replace_history (job : Job) (h : list Job) : list Job :=
  filter (λ j, job_id j ≠ job_id job) h ++ [job].

(** Lines 73-85 and 111-116: pop the head, test the memory, launch, record.
    When [Popen] raises, the exception leaves the function before any
    [save_jobs]: the file keeps what it had. *)
Definition run_next_admit (available : Z) (popen : string → popen_result)
    (f : jobs_file) : run_result :=
  let s := load_jobs f in
  match job_queue s with
  | [] => mkRun f QueueEmpty []
  | job :: q =>
      if (available >=? memory job)%Z then
        let job := set_status "running" job in
        match popen (command job) with
        | Spawned p =>
            let job := set_pid (Some p) job in
            mkRun (save_jobs q (replace_history job (job_history s)))
                  (Dispatched job) [command job]
        | PopenRaises => mkRun f (LaunchRaised job) [command job]
        end
      else
        mkRun (save_jobs (job :: q) (job_history s)) (OnHold job) []
  end.

(** Lines 88-95: one turn of the [while process.poll() is None] loop. *)
Definition run_next_checkpoint (job : Job) (f : jobs_file) : jobs_file :=
  let s := load_jobs f in
  save_jobs (job_queue s) (replace_history job (job_history s)).

(** Lines 98-109: the final status update. *)
Definition final_job (returncode : Z) (job : Job) : Job :=
  set_pid None
    (set_status (if (returncode =? 0)%Z then "executed" else "failed") job).

Definition run_next_finalize (job : Job) (returncode : Z) (f : jobs_file)
    : jobs_file :=
  let s := load_jobs f in
  save_jobs (job_queue s) (replace_history (final_job returncode job)
                                           (job_history s)).

(** One whole invocation with nobody else touching the file: the child is
    polled [polls] times before it ends with [returncode]. *)
Definition run_next_job (available : Z) (popen : string → popen_result)
    (polls : nat) (returncode : Z) (f : jobs_file) : jobs_file :=
  let r := run_next_admit available popen f in
  match outcome r with
  | Dispatched job =>
      run_next_finalize job returncode
        (Nat.iter polls (run_next_checkpoint job) (file_after r))
  | _ => file_after r
  end.

(** ** update *)

(** [psutil] process states. *)
Inductive proc_status : Type :=
  | STATUS_RUNNING | STATUS_SLEEPING | STATUS_DISK_SLEEP | STATUS_STOPPED
  | STATUS_TRACING_STOP | STATUS_ZOMBIE | STATUS_DEAD | STATUS_WAKING
  | STATUS_IDLE | STATUS_PARKED.

(** [psutil.Process(pid)]: raises [NoSuchProcess], or gives a process with
    its [status()] and [is_running()]. *)
Inductive process_lookup : Type :=
  | NoSuchProcess
  | Process (st : proc_status) (is_running : bool).

Definition zombie_or_dead (st : proc_status) : bool :=
  match st with
  | STATUS_ZOMBIE | STATUS_DEAD => true
  | _ => false
  end.

(** Lines 124-135: the body of the loop before the append. *)
Definition reconcile_job (ps : Z → process_lookup) (job : Job) : Job :=
  match pid job with
  | Some p =>
      if decide (status job = "running") then
        match ps p with
        | Process st is_running =>
            if zombie_or_dead st then set_pid None (set_status "executed" job)
            else if negb is_running then
              set_pid None (set_status "failed" job)
            else job
        | NoSuchProcess => set_pid None (set_status "failed" job)
        end
      else job
  | None => job
  end.

(** Lines 122-137: the loop that builds [updated_job_history]. *)
Fixpoint sweep (ps : Z → process_lookup) (h : list Job) : list Job :=
  match h with
  | [] => []
  | job :: rest =>
      let job := reconcile_job ps job in
      if decide (status job ≠ "executed") then job :: sweep ps rest
      else sweep ps rest
  end.

Definition update_job_status (ps : Z → process_lookup) (f : jobs_file)
    : jobs_file :=
  let s := load_jobs f in
  save_jobs (job_queue s) (sweep ps (job_history s)).

(** ** prioritize and clear *)

(** [prioritize_job]: the loop stops at the first queue entry with the id;
    [remove] takes that very object out (jobs compare by identity, and the
    loaded objects are all distinct), [appendleft] puts it in front.  With no
    match nothing is saved. *)
Definition prioritize_job (id : Z) (f : jobs_file) : jobs_file :=
  let s := load_jobs f in
  match list_find (λ j, job_id j = id) (job_queue s) with
  | Some (i, job) => save_jobs (job :: delete i (job_queue s)) (job_history s)
  | None => f
  end.

Definition clear_jobs_by_status (st : string) (f : jobs_file) : jobs_file :=
  let s := load_jobs f in
  save_jobs (filter (λ j, status j ≠ st) (job_queue s))
            (filter (λ j, status j ≠ st) (job_history s)).

(** ** Interleaved invocations *)

(** The file, and the jobs that some still-running [run_next_job] invocation
    holds in its local variable [job] while it supervises the child. *)
Record World : Type := mkWorld {
  disk : jobs_file;
  supervised : list Job
}.

Definition init : World := mkWorld None [].

(** One transaction of one invocation. *)
Inductive op : Type :=
  | Submit (user command : string) (priority memory compute : Z)
  | RunAdmit (available : Z) (popen : string → popen_result)
  | RunCheckpoint (i : nat)
  | RunFinalize (i : nat) (returncode : Z)
  | DispatcherDies (i : nat)
  | Reconcile (ps : Z → process_lookup)
  | Prioritize (id : Z)
  | ClearByStatus (st : string).

Definition exec (w : World) (o : op) : World :=
  match o with
  | Submit u c p m k => mkWorld (submit_job u c p m k (disk w)) (supervised w)
  | RunAdmit available popen =>
      let r := run_next_admit available popen (disk w) in
      match outcome r with
      | Dispatched job => mkWorld (file_after r) (supervised w ++ [job])
      | _ => mkWorld (file_after r) (supervised w)
      end
  | RunCheckpoint i =>
      match supervised w !! i with
      | Some job => mkWorld (run_next_checkpoint job (disk w)) (supervised w)
      | None => w
      end
  | RunFinalize i returncode =>
      match supervised w !! i with
      | Some job => mkWorld (run_next_finalize job returncode (disk w))
                            (delete i (supervised w))
      | None => w
      end
  | DispatcherDies i => mkWorld (disk w) (delete i (supervised w))
  | Reconcile ps => mkWorld (update_job_status ps (disk w)) (supervised w)
  | Prioritize id => mkWorld (prioritize_job id (disk w)) (supervised w)
  | ClearByStatus st =>
      mkWorld (clear_jobs_by_status st (disk w)) (supervised w)
  end.

Definition exec_all (ops : list op) (w : World) : World := foldl exec w ops.

(** [o], run in [w], takes no entry out of History: only the pruning of
    reconcile and clearByStatus are looked at, by the length of History
    before and after. *)
Definition keeps_entries (w : World) (o : op) : bool :=
  match o with
  | Reconcile _ | ClearByStatus _ =>
      Nat.leb (length (job_history (load_jobs (disk w))))
              (length (job_history (load_jobs (disk (exec w o)))))
  | _ => true
  end.

(** No transaction of the run [ops], started in [w], removes an entry. *)
Fixpoint nothing_removed (ops : list op) (w : World) : bool :=
  match ops with
  | [] => true
  | o :: ops => keeps_entries w o && nothing_removed ops (exec w o)
  end.

(** ** Predicates of the specification *)

Definition ids (h : list Job) : list Z := job_id <$> h.

(** I3 *)
Definition pid_iff_running (j : Job) : Prop :=
  pid j ≠ None ↔ status j = "running".

(** I2 / P2 *)
Definition coherent (s : Store) : Prop :=
  ∀ j, j ∈ job_queue s → status j = "queued" ∧ j ∈ job_history s.

(** [l'] is [l] with exactly the entries of status [st] taken out: nothing
    of that status is left, nothing is added or reordered, and every
    selection of other entries of [l] is still there, in order. *)
Definition removes_exactly (st : string) (l l' : list Job) : Prop :=
  Forall (λ j, status j ≠ st) l' ∧
  l' `sublist_of` l ∧
  ∀ k, k `sublist_of` l → Forall (λ j, status j ≠ st) k → k `sublist_of` l'.

(** ** Invariants of the interleaved system *)

(** What every transaction keeps: I3 on the queue, on History and on the
    records the running dispatchers hold. *)
Definition pids_ok (w : World) : Prop :=
  Forall pid_iff_running (job_queue (load_jobs (disk w))) ∧
  Forall pid_iff_running (job_history (load_jobs (disk w))) ∧
  Forall pid_iff_running (supervised w).

(** History ids are pairwise different and lie in 1..count(history); the
    queue and the running dispatchers only hold ids of History. *)
Definition ids_ok (w : World) : Prop :=
  let s := load_jobs (disk w) in
  NoDup (ids (job_history s)) ∧
  (∀ x, x ∈ ids (job_history s) →
        (1 ≤ x ≤ Z.of_nat (length (job_history s)))%Z) ∧
  (∀ j, j ∈ job_queue s → job_id j ∈ ids (job_history s)) ∧
  (∀ j, j ∈ supervised w → job_id j ∈ ids (job_history s)).

(** The state of a run in which nothing was removed: ids are in order, the
    queue is coherent with History, and the queued and the supervised jobs
    all have different ids. *)
Definition sound (w : World) : Prop :=
  ids_ok w ∧
  coherent (load_jobs (disk w)) ∧
  NoDup (ids (job_queue (load_jobs (disk w)) ++ supervised w)).

(** ** Sample states and runs *)

(** A running record whose dispatcher is gone. *)
Definition crashed : Job :=
  mkJob 1 "alice" "sleep 60" 1 1048576 10 "running" (Some 4242%Z).

(** A record whose child is about to exit, and a failed one. *)
Definition done_job : Job :=
  mkJob 1 "alice" "true" 1 1048576 10 "running" (Some 4242%Z).

Definition broken_job : Job :=
  mkJob 2 "bob" "false" 2 2048 20 "failed" None.

(** A run in which reconcile finds the child alive and prunes nothing. *)
Definition ops_grow : list op :=
  [ Submit "alice" "true" 1 1048576 10;
    Submit "bob" "make" 2 2048 20;
    RunAdmit 1073741824 (λ _, Spawned 4242);
    Prioritize 2;
    Reconcile (λ _, Process STATUS_SLEEPING true);
    RunCheckpoint 0;
    RunFinalize 0 0;
    Submit "carol" "ls" 3 4096 30 ].

(** The run that shows the reuse: job 1 runs, exits with code zero and is
    pruned by reconcile; the next submission finds one entry in History and
    gets the id 2, which the second job still carries. *)
Definition ops_reuse : list op :=
  [ Submit "alice" "true" 1 1048576 10;
    Submit "bob" "make" 2 2048 20;
    RunAdmit 1073741824 (λ _, Spawned 4242);
    RunFinalize 0 0;
    Reconcile (λ _, NoSuchProcess);
    Submit "carol" "ls" 3 4096 30 ].

(** [ops_reuse], then one more runNext: it dispatches the second job and
    takes every History entry with the id 2 out. *)
Definition ops_orphan : list op :=
  ops_reuse ++ [ RunAdmit 1073741824 (λ _, Spawned 4243) ].

(** [ops_reuse] up to and including the reconcile, before the third
    submission. *)
Definition ops_pruned : list op := take 5 ops_reuse.

(** A run that loses a failed entry: job 1 exits with code zero and job 2
    with code one, reconcile prunes job 1, the third submission gets the id
    2 again, and its dispatch rewrites History by that id. *)
Definition ops_failed_lost : list op :=
  [ Submit "alice" "true" 1 1048576 10;
    Submit "bob" "make" 2 2048 20;
    RunAdmit 1073741824 (λ _, Spawned 4242);
    RunFinalize 0 0;
    RunAdmit 1073741824 (λ _, Spawned 4243);
    RunFinalize 0 1;
    Reconcile (λ _, NoSuchProcess);
    Submit "carol" "ls" 3 4096 30 ].

(** ** Well-formed records *)

(** The four statuses of the lifecycle. *)
Definition known_status (j : Job) : Prop :=
  status j ∈ ["queued"; "running"; "executed"; "failed"].

(** What holds of the records in every state the transactions reach: queue
    entries are fresh ([queued], no pid), History entries have one of the
    four statuses, supervised records are running, and ids start at 1. *)
Definition records_ok (w : World) : Prop :=
  Forall (λ j, status j = "queued" ∧ pid j = None ∧ (1 ≤ job_id j)%Z)
         (job_queue (load_jobs (disk w))) ∧
  Forall (λ j, known_status j ∧ (1 ≤ job_id j)%Z)
         (job_history (load_jobs (disk w))) ∧
  Forall (λ j, status j = "running" ∧ (1 ≤ job_id j)%Z) (supervised w).

Definition is_submit (o : op) : bool :=
  match o with
  | Submit _ _ _ _ _ => true
  | _ => false
  end.

(** ** Runs of submissions *)

(** The arguments of one [submit_job] call. *)
Record submission : Type := mkSubmission {
  sub_user : string;
  sub_command : string;
  sub_priority : Z;
  sub_memory : Z;
  sub_compute : Z
}.

Definition submit (f : jobs_file) (s : submission) : jobs_file :=
  submit_job (sub_user s) (sub_command s) (sub_priority s) (sub_memory s)
             (sub_compute s) f.

(** The job that [submit_job] builds for [s] when it is given the id
    [n + 1]. *)
Definition job_of (n : nat) (s : submission) : Job :=
  Job_init (Z.of_nat n + 1) (sub_user s) (sub_command s) (sub_priority s)
           (sub_memory s) (sub_compute s).

(** ** The JSON document *)

(** The exceptions the script can end with in the parts modelled below. *)
Inductive exn : Type :=
  | KeyError (key : string)
  | IndexError
  | ValueError.

Definition bind_exn {A B : Type} (x : exn + A) (k : A → exn + B) : exn + B :=
  match x with
  | inl e => inl e
  | inr a => k a
  end.

(** [to_dict], [from_dict], [load_jobs] and [save_jobs] as they work on what
    [json.load] returns and [json.dump] takes: dicts with string keys.  The
    transactions above use the typed [Store]; [Json.file_of] and
    [Json.of_job] tie the two together. *)
Module Json.

(** The values a job attribute holds in the file: a number, a string or
    [null]. *)
Inductive pyval : Type :=
  | PyInt (z : Z)
  | PyStr (s : string)
  | PyNone.

(** A [Job] object as Python has it: eight attributes, each of which can
    hold any value ([from_dict] checks no types). *)
Record PyJob : Type := mkPyJob {
  attr_job_id : pyval;
  attr_user : pyval;
  attr_command : pyval;
  attr_priority : pyval;
  attr_memory : pyval;
  attr_compute : pyval;
  attr_status : pyval;
  attr_pid : pyval
}.

(** [to_dict]: the object's [__dict__]. *)
Definition to_dict (job : PyJob) : gmap string pyval :=
  list_to_map
    [ ("job_id", attr_job_id job); ("user", attr_user job);
      ("command", attr_command job); ("priority", attr_priority job);
      ("memory", attr_memory job); ("compute", attr_compute job);
      ("status", attr_status job); ("pid", attr_pid job) ].

(** [data[key]] *)
Definition getitem (data : gmap string pyval) (key : string) : exn + pyval :=
  match data !! key with
  | Some v => inr v
  | None => inl (KeyError key)
  end.

(** [data.get(key, default)] *)
Definition get (data : gmap string pyval) (key : string) (default : pyval)
    : pyval :=
  match data !! key with
  | Some v => v
  | None => default
  end.

(** [from_dict]: the six constructor arguments are read in order, then
    ['status'], then ['pid'] with [None] as default. *)
Definition from_dict (data : gmap string pyval) : exn + PyJob :=
  bind_exn (getitem data "job_id") (λ job_id,
  bind_exn (getitem data "user") (λ user,
  bind_exn (getitem data "command") (λ command,
  bind_exn (getitem data "priority") (λ priority,
  bind_exn (getitem data "memory") (λ memory,
  bind_exn (getitem data "compute") (λ compute,
  bind_exn (getitem data "status") (λ status,
  inr (mkPyJob job_id user command priority memory compute status
               (get data "pid" PyNone))))))))).

(** The keys [from_dict] cannot do without, in the order it reads them. *)
Definition required_keys : list string :=
  ["job_id"; "user"; "command"; "priority"; "memory"; "compute"; "status"].

(** [[Job.from_dict(job) for job in ...]]: the first failure ends it. *)
Fixpoint from_dicts (l : list (gmap string pyval)) : exn + list PyJob :=
  match l with
  | [] => inr []
  | data :: rest =>
      bind_exn (from_dict data) (λ job,
      bind_exn (from_dicts rest) (λ jobs, inr (job :: jobs)))
  end.

(** [save_jobs]: the document that [json.dump] writes. *)
Definition save_jobs (job_queue job_history : list PyJob)
    : gmap string (list (gmap string pyval)) :=
  list_to_map
    [ ("job_queue", to_dict <$> job_queue);
      ("job_history", to_dict <$> job_history) ].

(** [load_jobs]: [None] is the missing file. *)
Definition load_jobs (file : option (gmap string (list (gmap string pyval))))
    : exn + (list PyJob * list PyJob) :=
  match file with
  | None => inr ([], [])
  | Some data =>
      match data !! "job_queue" with
      | None => inl (KeyError "job_queue")
      | Some queue =>
          bind_exn (from_dicts queue) (λ job_queue,
          match data !! "job_history" with
          | None => inl (KeyError "job_history")
          | Some history =>
              bind_exn (from_dicts history) (λ job_history,
              inr (job_queue, job_history))
          end)
      end
  end.

(** The typed record of the transactions as a Python object, and back. *)
Definition of_job (j : Job) : PyJob :=
  mkPyJob (PyInt (job_id j)) (PyStr (user j)) (PyStr (command j))
          (PyInt (priority j)) (PyInt (memory j)) (PyInt (compute j))
          (PyStr (status j))
          (match pid j with Some p => PyInt p | None => PyNone end).

Definition as_job (a : PyJob) : option Job :=
  match a with
  | mkPyJob (PyInt i) (PyStr u) (PyStr c) (PyInt p) (PyInt m) (PyInt k)
            (PyStr s) (PyInt x) => Some (mkJob i u c p m k s (Some x))
  | mkPyJob (PyInt i) (PyStr u) (PyStr c) (PyInt p) (PyInt m) (PyInt k)
            (PyStr s) PyNone => Some (mkJob i u c p m k s None)
  | _ => None
  end.

(** What is on disk for a [jobs_file]. *)
Definition file_of (f : jobs_file)
    : option (gmap string (list (gmap string pyval))) :=
  match f with
  | None => None
  | Some s => Some (save_jobs (of_job <$> job_queue s)
                              (of_job <$> job_history s))
  end.

End Json.

(** ** The monitor's progress bar *)

(** Python's [s * n] on a string: empty when [n <= 0]. *)
Definition str_mul (s : string) (n : Z) : string :=
  Nat.iter (Z.to_nat n) (String.append s) "".

(** [draw_progress_bar], from its second line on: [bar_width] is the
    [int(percentage * width)] of the first line, a float product that the
    caller of this definition supplies. *)
Definition draw_progress_bar (bar_width width : Z) : string :=
  "[" +:+ str_mul "#" bar_width +:+ str_mul "-" (width - bar_width) +:+ "]".

(** ** The command line *)

(** What the [__main__] block ends up doing. *)
Inductive call : Type :=
  | PrintUsageExit1
  | CallSubmit (user cmd : string) (priority memory compute : Z)
  | CallRun
  | CallList
  | CallPrioritize (job_id : Z)
  | CallUpdate
  | CallClear (status : string)
  | PrintClearUsage
  | PrintUnknown
  | Raise (e : exn).

(** [sys.argv[i]] *)
Definition argv_at (argv : list string) (i : nat) : exn + string :=
  match argv !! i with
  | Some a => inr a
  | None => inl IndexError
  end.

(** The [__main__] block.  [int] stands for Python's [int()] on a string,
    [None] being its [ValueError]. *)
Definition main (int : string → option Z) (argv : list string) : call :=
  let to_int (a : string) : exn + Z :=
    match int a with Some z => inr z | None => inl ValueError end in
  let finish (r : exn + call) : call :=
    match r with inl e => Raise e | inr c => c end in
  if (length argv <? 2)%nat then PrintUsageExit1
  else finish (
    bind_exn (argv_at argv 1) (λ command,
    if decide (command = "submit") then
      bind_exn (argv_at argv 2) (λ user,
      bind_exn (argv_at argv 3) (λ cmd,
      bind_exn (bind_exn (argv_at argv 4) to_int) (λ priority,
      bind_exn (bind_exn (argv_at argv 5) to_int) (λ memory,
      bind_exn (bind_exn (argv_at argv 6) to_int) (λ compute,
      inr (CallSubmit user cmd priority memory compute))))))
    else if decide (command = "run") then inr CallRun
    else if decide (command = "list") then inr CallList
    else if decide (command = "prioritize") then
      bind_exn (bind_exn (argv_at argv 2) to_int) (λ job_id,
      inr (CallPrioritize job_id))
    else if decide (command = "update") then inr CallUpdate
    else if decide (command = "clear") then
      if decide (length argv = 4%nat ∧ argv !! 2%nat = Some "-s") then
        bind_exn (argv_at argv 3) (λ status, inr (CallClear status))
      else inr PrintClearUsage
    else inr PrintUnknown)).

(** What a [call] does to [jobs.json]; the operating system's part in [run]
    and [update] is given as for the functions themselves.  [list] only
    reads. *)
Definition perform (available : Z) (popen : string → popen_result)
    (polls : nat) (returncode : Z) (ps : Z → process_lookup)
    (c : call) (f : jobs_file) : jobs_file :=
  match c with
  | CallSubmit u cmd p m k => submit_job u cmd p m k f
  | CallRun => run_next_job available popen polls returncode f
  | CallPrioritize id => prioritize_job id f
  | CallUpdate => update_job_status ps f
  | CallClear st => clear_jobs_by_status st f
  | CallList | PrintUsageExit1 | PrintClearUsage | PrintUnknown | Raise _ => f
  end.

(** * Properties *)

(** ** Lists *)

Section list_facts.
Context {A : Type} (P : A → Prop) `{!∀ x, Decision (P x)}.

Lemma Forall_filter_holds (l : list A) : Forall P (filter P l).
Proof.
  apply Forall_forall. intros x Hx.
  by apply list_elem_of_filter in Hx as [? _].
Qed.

Lemma sublist_filter_greatest (k l : list A) :
  k `sublist_of` l → Forall P k → k `sublist_of` filter P l.
Proof.
  induction 1 as [|x k l _ IH|x k l _ IH]; intros HP.
  - constructor.
  - apply Forall_cons in HP as [Hx Hk].
    rewrite filter_cons_True by done. constructor. by apply IH.
  - rewrite filter_cons. case_decide; [apply sublist_cons|]; by apply IH.
Qed.

Lemma filter_all (l : list A) : Forall P l → filter P l = l.
Proof.
  induction 1 as [|x l Hx _ IH]; [done|].
  by rewrite filter_cons_True, IH.
Qed.

Lemma filter_full (l : list A) :
  length l ≤ length (filter P l) → filter P l = l.
Proof.
  induction l as [|x l IH]; [done|].
  rewrite filter_cons. case_decide; simpl; intros Hlen.
  - f_equal. apply IH. lia.
  - pose proof (length_filter P l). lia.
Qed.

End list_facts.

Lemma load_save q h : load_jobs (save_jobs q h) = mkStore q h.
Proof. reflexivity. Qed.

(** ** The reconciler leaves the queue alone *)

(** C10: reconcile saves back the queue it loaded, entry for entry and in
    the same order; only History is rewritten. *)
Theorem update_job_status_keeps_queue (ps : Z → process_lookup)
    (f : jobs_file) :
  job_queue (load_jobs (update_job_status ps f)) = job_queue (load_jobs f) ∧
  job_history (load_jobs (update_job_status ps f))
    = sweep ps (job_history (load_jobs f)).
Proof. split; reflexivity. Qed.

(** ** Admission is head-of-line *)

(** C3: when the head job declares more memory than is available, the first
    transaction of runNext puts it back in front: the saved Queue and History
    are the loaded ones (so no status changed), [Popen] is not called, and
    the invocation ends there. *)
Theorem run_next_on_hold (available : Z) (popen : string → popen_result)
    (f : jobs_file) (job : Job) (q h : list Job) :
  load_jobs f = mkStore (job :: q) h →
  (memory job > available)%Z →
  let r := run_next_admit available popen f in
  load_jobs (file_after r) = mkStore (job :: q) h ∧
  outcome r = OnHold job ∧
  popen_calls r = [] ∧
  ∀ polls returncode,
    load_jobs (run_next_job available popen polls returncode f)
      = mkStore (job :: q) h.
Proof.
  intros Hload Hmem. simpl.
  assert (Hr : run_next_admit available popen f
               = mkRun (save_jobs (job :: q) h) (OnHold job) []).
  { unfold run_next_admit. rewrite Hload. simpl.
    destruct (Z.geb_spec available (memory job)); [lia|done]. }
  unfold run_next_job. rewrite Hr. simpl. done.
Qed.

Lemma run_next_on_hold_witness :
  let big := mkJob 1 "alice" "sort huge.txt" 1 8000000000 10 "queued" None in
  let f := save_jobs [big] [big] in
  let r := run_next_admit 1073741824 (λ _, Spawned 4242) f in
  load_jobs (file_after r) = mkStore [big] [big] ∧
  outcome r = OnHold big ∧
  popen_calls r = [] ∧
  ∀ polls returncode,
    load_jobs (run_next_job 1073741824 (λ _, Spawned 4242) polls returncode f)
      = mkStore [big] [big].
Proof.
  apply (run_next_on_hold 1073741824 (λ _, Spawned 4242)
           (save_jobs [mkJob 1 "alice" "sort huge.txt" 1 8000000000 10
                             "queued" None]
                      [mkJob 1 "alice" "sort huge.txt" 1 8000000000 10
                             "queued" None])).
  - reflexivity.
  - simpl. lia.
Defined.

(** ** prioritize *)

(** C8: if some queue entry has the id, the first such entry moves to the
    front, the entries before and after it keep their order, and History is
    untouched; if none has it, the file is left as it was. *)
Theorem prioritize_job_spec (id : Z) (f : jobs_file) :
  ((∃ j, j ∈ job_queue (load_jobs f) ∧ job_id j = id) →
   ∃ pre job post,
     job_queue (load_jobs f) = pre ++ job :: post ∧
     job_id job = id ∧
     Forall (λ j, job_id j ≠ id) pre ∧
     load_jobs (prioritize_job id f)
       = mkStore (job :: pre ++ post) (job_history (load_jobs f))) ∧
  (Forall (λ j, job_id j ≠ id) (job_queue (load_jobs f)) →
   prioritize_job id f = f).
Proof.
  split.
  - intros (j & Hj & Hid).
    destruct (list_find_elem_of (λ j, job_id j = id) _ j Hj Hid)
      as [[i job] Hfind].
    unfold prioritize_job. rewrite Hfind.
    apply list_find_Some in Hfind as (Hi & Hjob & Hbefore).
    exists (take i (job_queue (load_jobs f))), job,
           (drop (S i) (job_queue (load_jobs f))).
    split_and!.
    + by rewrite take_drop_middle.
    + done.
    + apply Forall_lookup. intros k y Hk.
      apply lookup_take_Some in Hk as [Hy Hlt]. by eapply Hbefore.
    + by rewrite load_save, delete_take_drop.
  - intros Hnone. unfold prioritize_job.
    by rewrite (proj2 (list_find_None (λ j, job_id j = id) _) Hnone).
Qed.

Lemma prioritize_job_spec_witness :
  let a := Job_init 1 "alice" "true" 1 1048576 10 in
  let b := Job_init 2 "bob" "make" 2 2048 20 in
  let f := save_jobs [a; b] [a; b] in
  (∃ pre job post,
     [a; b] = pre ++ job :: post ∧
     job_id job = 2%Z ∧
     Forall (λ j, job_id j ≠ 2%Z) pre ∧
     load_jobs (prioritize_job 2 f) = mkStore (job :: pre ++ post) [a; b]) ∧
  prioritize_job 7 f = f.
Proof.
  intros a b f. split.
  - apply (proj1 (prioritize_job_spec 2 f)).
    exists b. split; [|reflexivity].
    simpl. apply list_elem_of_further, list_elem_of_here.
  - apply (proj2 (prioritize_job_spec 7 f)).
    simpl. repeat constructor; simpl; lia.
Defined.

(** ** clear *)

(** C9: clearByStatus(st) takes exactly the entries of status [st] out of the
    Queue and out of History: none of them is left, and the others stay in
    their order. *)
Theorem clear_jobs_by_status_spec (st : string) (f : jobs_file) :
  let s := load_jobs f in
  let s' := load_jobs (clear_jobs_by_status st f) in
  removes_exactly st (job_queue s) (job_queue s') ∧
  removes_exactly st (job_history s) (job_history s') ∧
  ∀ j, (j ∈ job_queue s' ↔ j ∈ job_queue s ∧ status j ≠ st) ∧
       (j ∈ job_history s' ↔ j ∈ job_history s ∧ status j ≠ st).
Proof.
  simpl. unfold removes_exactly. split_and!.
  - apply Forall_filter_holds.
  - apply sublist_filter.
  - intros k. apply sublist_filter_greatest.
  - apply Forall_filter_holds.
  - apply sublist_filter.
  - intros k. apply sublist_filter_greatest.
  - intros j. rewrite !list_elem_of_filter. tauto.
Qed.

(** ** The reconciler's sweep *)

Lemma sweep_app ps (h1 h2 : list Job) :
  sweep ps (h1 ++ h2) = sweep ps h1 ++ sweep ps h2.
Proof.
  induction h1 as [|j h1 IH]; [done|].
  simpl. case_decide; by rewrite IH.
Qed.

Lemma reconcile_job_not_running ps (job : Job) :
  status job ≠ "running" → reconcile_job ps job = job.
Proof.
  intros Hst. unfold reconcile_job.
  destruct (pid job); [|done]. by rewrite decide_False.
Qed.

Lemma sweep_no_executed ps (h : list Job) :
  Forall (λ j, status j ≠ "executed") (sweep ps h).
Proof.
  induction h as [|j h IH]; simpl; [constructor|].
  case_decide; [by constructor|done].
Qed.

Lemma sweep_keeps ps (h : list Job) (j : Job) :
  j ∈ h → status j ≠ "running" → status j ≠ "executed" → j ∈ sweep ps h.
Proof.
  intros Hin Hrun Hex. induction Hin as [j h|j k h _ IH]; simpl.
  - rewrite reconcile_job_not_running by done.
    rewrite decide_True by done. apply list_elem_of_here.
  - case_decide; [apply list_elem_of_further|]; by apply IH.
Qed.

(** The four ways the sweep can treat a running entry that has a pid. *)
Lemma reconcile_job_running ps (job : Job) (p : Z) :
  status job = "running" → pid job = Some p →
  reconcile_job ps job =
    match ps p with
    | NoSuchProcess => set_pid None (set_status "failed" job)
    | Process st is_running =>
        if zombie_or_dead st then set_pid None (set_status "executed" job)
        else if is_running then job
        else set_pid None (set_status "failed" job)
    end.
Proof.
  intros Hst Hpid. unfold reconcile_job. rewrite Hpid, decide_True by done.
  destruct (ps p) as [|st []]; [done|..]; by destruct (zombie_or_dead st).
Qed.

(** C2, as the code has it: a running entry with a pid is set to failed,
    with its pid cleared, and stays in History when the process is absent
    (or is present, neither zombie nor dead, and reported as not running);
    when the process is present as a zombie or dead, the entry is set to
    executed, its pid cleared, and the same transaction drops it from
    History. *)
Theorem update_job_status_stale (ps : Z → process_lookup) (f : jobs_file)
    (pre post : list Job) (job : Job) (p : Z) :
  job_history (load_jobs f) = pre ++ job :: post →
  status job = "running" →
  pid job = Some p →
  let h' := job_history (load_jobs (update_job_status ps f)) in
  let failed := set_pid None (set_status "failed" job) in
  let executed := set_pid None (set_status "executed" job) in
  (ps p = NoSuchProcess →
     reconcile_job ps job = failed ∧
     h' = sweep ps pre ++ failed :: sweep ps post) ∧
  (∀ st, ps p = Process st false → zombie_or_dead st = false →
     reconcile_job ps job = failed ∧
     h' = sweep ps pre ++ failed :: sweep ps post) ∧
  (∀ st is_running, ps p = Process st is_running → zombie_or_dead st = true →
     reconcile_job ps job = executed ∧
     h' = sweep ps pre ++ sweep ps post).
Proof.
  intros Hh Hst Hpid. simpl. rewrite Hh, sweep_app. simpl.
  rewrite (reconcile_job_running ps job p Hst Hpid).
  split_and!.
  - intros ->. by rewrite decide_True.
  - intros st -> ->. by rewrite decide_True.
  - intros st r -> ->. by rewrite decide_False by (intros H; by apply H).
Qed.

Lemma update_job_status_stale_witness :
  let f := save_jobs [] [crashed] in
  let ps := λ _ : Z, NoSuchProcess in
  reconcile_job ps crashed = set_pid None (set_status "failed" crashed) ∧
  job_history (load_jobs (update_job_status ps f))
    = [set_pid None (set_status "failed" crashed)].
Proof.
  intros f ps.
  apply (proj1 (update_job_status_stale ps f [] [] crashed 4242
                  eq_refl eq_refl eq_refl)).
  reflexivity.
Defined.

(** C2 as stated fails: a running entry whose process is a zombie is
    classified executed, not failed, and leaves History. *)
Lemma update_job_status_zombie_executed :
  let f := save_jobs [] [crashed] in
  let ps := λ _ : Z, Process STATUS_ZOMBIE false in
  status crashed = "running" ∧ pid crashed = Some 4242%Z ∧
  ps 4242%Z = Process STATUS_ZOMBIE false ∧
  status (reconcile_job ps crashed) = "executed" ∧
  status (reconcile_job ps crashed) ≠ "failed" ∧
  job_history (load_jobs (update_job_status ps f)) = [].
Proof. vm_compute. split_and!; done. Qed.

(** ** Pruning *)

Lemma prioritize_job_history (id : Z) (f : jobs_file) :
  job_history (load_jobs (prioritize_job id f)) = job_history (load_jobs f).
Proof.
  unfold prioritize_job.
  by destruct (list_find _ _) as [[i job]|].
Qed.

Lemma replace_history_other (job j : Job) (h : list Job) :
  j ∈ h → job_id j ≠ job_id job → j ∈ replace_history job h.
Proof.
  intros Hin Hne. unfold replace_history.
  apply elem_of_app. left. by apply list_elem_of_filter.
Qed.

Lemma replace_history_last (job : Job) (h : list Job) :
  last (replace_history job h) = Some job.
Proof. apply last_snoc. Qed.

Lemma checkpoints_keep_other (job j : Job) (n : nat) (f : jobs_file) :
  j ∈ job_history (load_jobs f) → job_id j ≠ job_id job →
  j ∈ job_history (load_jobs (Nat.iter n (run_next_checkpoint job) f)).
Proof.
  intros Hj Hne. induction n as [|n IH]; [done|].
  simpl. by apply replace_history_other.
Qed.

(** C5, as the code has it: right after the final status update of a job
    that exited with code zero, the job is in History (its last entry) with
    status executed and no pid; no executed entry is left after a reconcile;
    a failed entry is kept by reconcile, submit, prioritize, by
    clearByStatus of any other status and by every runNext transaction
    (admission, checkpoint, final update, and so a whole invocation) that
    handles a job with another id, and clearByStatus("failed") leaves
    none. *)
Theorem executed_stays_until_reconcile (f : jobs_file) :
  (∀ job, last (job_history (load_jobs (run_next_finalize job 0 f)))
          = Some (set_pid None (set_status "executed" job))) ∧
  (∀ ps j, j ∈ job_history (load_jobs (update_job_status ps f)) →
           status j ≠ "executed") ∧
  (∀ j, j ∈ job_history (load_jobs f) → status j = "failed" →
     (∀ ps, j ∈ job_history (load_jobs (update_job_status ps f))) ∧
     (∀ u c p m k, j ∈ job_history (load_jobs (submit_job u c p m k f))) ∧
     (∀ id, j ∈ job_history (load_jobs (prioritize_job id f))) ∧
     (∀ st, st ≠ "failed" →
            j ∈ job_history (load_jobs (clear_jobs_by_status st f))) ∧
     (∀ job rc, job_id j ≠ job_id job →
        j ∈ job_history (load_jobs (run_next_checkpoint job f)) ∧
        j ∈ job_history (load_jobs (run_next_finalize job rc f))) ∧
     (∀ available popen,
        (∀ job, head (job_queue (load_jobs f)) = Some job →
                job_id job ≠ job_id j) →
        j ∈ job_history
              (load_jobs (file_after (run_next_admit available popen f))) ∧
        ∀ polls rc,
          j ∈ job_history
                (load_jobs (run_next_job available popen polls rc f)))) ∧
  (∀ j, j ∈ job_history (load_jobs (clear_jobs_by_status "failed" f)) →
        status j ≠ "failed").
Proof.
  split_and!.
  - intros job. apply replace_history_last.
  - intros ps j Hj. simpl in Hj.
    by eapply (proj1 (Forall_forall _ _) (sweep_no_executed ps _)).
  - intros j Hj Hst. split_and!.
    + intros ps. simpl. apply sweep_keeps; [done|by rewrite Hst..].
    + intros u c p m k. simpl. apply elem_of_app. by left.
    + intros id. by rewrite prioritize_job_history.
    + intros st Hne. simpl. apply list_elem_of_filter. by rewrite Hst.
    + intros job rc Hid. split; simpl; by apply replace_history_other.
    + intros available popen Hhead.
      unfold run_next_job, run_next_admit.
      destruct (job_queue (load_jobs f)) as [|job q]; simpl; [done|].
      assert (Hne : job_id j ≠ job_id job).
      { intros Heq. by apply (Hhead job). }
      destruct (available >=? memory job)%Z; simpl; [|done].
      destruct (popen (command job)) as [p|]; simpl; [|done].
      split; [by apply replace_history_other|].
      intros polls rc. apply replace_history_other; [|done].
      apply checkpoints_keep_other; [|done].
      simpl. by apply replace_history_other.
  - intros j Hj. simpl in Hj. by apply list_elem_of_filter in Hj as [? _].
Qed.

Lemma executed_stays_until_reconcile_witness :
  let carol := Job_init 3 "carol" "ls" 3 4096 30 in
  let f := save_jobs [carol] [broken_job; done_job; carol] in
  last (job_history (load_jobs (run_next_finalize done_job 0 f)))
    = Some (set_pid None (set_status "executed" done_job)) ∧
  (∀ ps, broken_job ∈ job_history (load_jobs (update_job_status ps f))) ∧
  (∀ rc, broken_job
           ∈ job_history (load_jobs (run_next_finalize done_job rc f))) ∧
  (∀ available popen polls rc,
     broken_job ∈ job_history
                    (load_jobs (run_next_job available popen polls rc f))).
Proof.
  intros carol f.
  destruct (executed_stays_until_reconcile f) as (Hlast & _ & Hkeep & _).
  destruct (Hkeep broken_job) as (Hrec & _ & _ & _ & Hrun & Hadmit).
  - apply list_elem_of_here.
  - reflexivity.
  - split_and!.
    + apply Hlast.
    + apply Hrec.
    + intros rc. apply (Hrun done_job rc). simpl. lia.
    + intros available popen polls rc.
      apply (Hadmit available popen).
      intros job [= <-]. simpl. lia.
Defined.

(** C5 as stated fails, in both halves: after the final update of a job
    that exited with code zero, the job is still an entry of History; and a
    failed entry leaves History with no clearByStatus at all, when a later
    submission has been given its id and is dispatched. *)
Lemma executed_kept_and_failed_lost :
  let a := Job_init 1 "alice" "true" 1 1048576 10 in
  let f := run_next_job 1073741824 (λ _, Spawned 4242) 3 0
             (save_jobs [a] [a]) in
  let bob_failed := mkJob 2 "bob" "make" 2 2048 20 "failed" None in
  let w := exec_all ops_failed_lost init in
  (job_history (load_jobs f) = [set_status "executed" a] ∧
   set_status "executed" a ∈ job_history (load_jobs f)) ∧
  (status bob_failed = "failed" ∧
   bob_failed ∈ job_history (load_jobs (disk w)) ∧
   job_history (load_jobs
       (disk (exec w (RunAdmit 1073741824 (λ _, Spawned 4244)))))
     = [mkJob 2 "carol" "ls" 3 4096 30 "running" (Some 4244%Z)] ∧
   bob_failed ∉ job_history (load_jobs
       (disk (exec w (RunAdmit 1073741824 (λ _, Spawned 4244)))))).
Proof.
  intros a f bob_failed w. split.
  - split; [by vm_compute|]. vm_compute. apply list_elem_of_here.
  - assert (Hafter : job_history (load_jobs
                (disk (exec w (RunAdmit 1073741824 (λ _, Spawned 4244)))))
              = [mkJob 2 "carol" "ls" 3 4096 30 "running" (Some 4244%Z)])
      by (by vm_compute).
    split_and!.
    + done.
    + vm_compute. apply list_elem_of_here.
    + done.
    + rewrite Hafter. intros Hin%list_elem_of_singleton. discriminate Hin.
Qed.

(** ** Launch failure *)




(** ** The pid invariant *)

Lemma pid_iff_running_init id u c p m k :
  pid_iff_running (Job_init id u c p m k).
Proof. split; [by intros []|discriminate]. Qed.

Lemma pid_iff_running_launched p (job : Job) :
  pid_iff_running (set_pid (Some p) (set_status "running" job)).
Proof. split; [done|discriminate]. Qed.

Lemma pid_iff_running_final rc (job : Job) :
  pid_iff_running (final_job rc job).
Proof.
  unfold final_job. split; [by intros []|].
  simpl. by destruct (rc =? 0)%Z.
Qed.

Lemma pid_iff_running_reconcile ps (job : Job) :
  pid_iff_running job → pid_iff_running (reconcile_job ps job).
Proof.
  intros Hjob. unfold reconcile_job.
  destruct (pid job) as [p|] eqn:Hpid; [|done].
  case_decide; [|done].
  destruct (ps p) as [|st r].
  - split; [by intros []|discriminate].
  - destruct (zombie_or_dead st); [split; [by intros []|discriminate]|].
    destruct r; [done|]. split; [by intros []|discriminate].
Qed.

Lemma Forall_replace_history (P : Job → Prop) (job : Job) (h : list Job) :
  Forall P h → P job → Forall P (replace_history job h).
Proof.
  intros Hh Hjob. apply Forall_app. split.
  - apply Forall_forall. intros j [_ Hj]%list_elem_of_filter.
    by apply (proj1 (Forall_forall _ _) Hh).
  - by apply Forall_singleton.
Qed.

Lemma Forall_status_filter (P : Job → Prop) (st : string) (l : list Job) :
  Forall P l → Forall P (filter (λ j, status j ≠ st) l).
Proof.
  intros Hl. apply Forall_forall. intros j [_ Hj]%list_elem_of_filter.
  by apply (proj1 (Forall_forall _ _) Hl).
Qed.

Lemma Forall_sweep (P : Job → Prop) ps (h : list Job) :
  (∀ j, P j → P (reconcile_job ps j)) → Forall P h → Forall P (sweep ps h).
Proof.
  intros Hstep. induction 1 as [|j h Hj _ IH]; simpl; [constructor|].
  case_decide; [constructor; auto|done].
Qed.

Lemma pids_ok_init : pids_ok init.
Proof. repeat split; constructor. Qed.

Lemma pids_ok_admit available popen (w : World) :
  pids_ok w → pids_ok (exec w (RunAdmit available popen)).
Proof.
  intros (Hq & Hh & Hs). simpl. unfold run_next_admit.
  destruct (job_queue (load_jobs (disk w))) as [|job q] eqn:Hqueue.
  { simpl. unfold pids_ok. simpl. by rewrite Hqueue. }
  apply Forall_cons in Hq as [Hjob Hq].
  destruct (available >=? memory job)%Z.
  - simpl. destruct (popen (command job)) as [p|]; simpl.
    + split_and!; simpl.
      * done.
      * apply Forall_replace_history; [done|].
        apply pid_iff_running_launched.
      * apply Forall_app. split; [done|].
        apply Forall_singleton, pid_iff_running_launched.
    + unfold pids_ok. simpl. rewrite Hqueue.
      split_and!; [by constructor|done..].
  - simpl. split_and!; simpl; [by constructor|done..].
Qed.

Lemma pids_ok_exec (w : World) (o : op) : pids_ok w → pids_ok (exec w o).
Proof.
  intros Hw. destruct o as [u c p m k|available popen|i|i rc|i|ps|id|st];
    try (by apply pids_ok_admit); destruct Hw as (Hq & Hh & Hs).
  - split_and!; simpl; [| |done];
      (apply Forall_app; split; [done|]);
      apply Forall_singleton, pid_iff_running_init.
  - simpl. destruct (supervised w !! i) as [job|] eqn:Hi; [|done].
    split_and!; simpl; [done| |done].
    apply Forall_replace_history; [done|].
    exact (Forall_lookup_1 _ _ _ _ Hs Hi).
  - simpl. destruct (supervised w !! i) as [job|] eqn:Hi; [|done].
    split_and!; simpl; [done| |by apply Forall_delete].
    apply Forall_replace_history; [done|]. apply pid_iff_running_final.
  - split_and!; simpl; [done..|by apply Forall_delete].
  - split_and!; simpl; [done| |done].
    apply Forall_sweep; [|done]. apply pid_iff_running_reconcile.
  - simpl. unfold prioritize_job.
    destruct (list_find _ _) as [[i job]|] eqn:Hfind; [|done].
    apply list_find_Some in Hfind as (Hi & _ & _).
    split_and!; simpl; [|done..].
    constructor; [exact (Forall_lookup_1 _ _ _ _ Hq Hi)|by apply Forall_delete].
  - split_and!; simpl; [by apply Forall_status_filter..|done].
Qed.

Lemma pids_ok_exec_all (ops : list op) (w : World) :
  pids_ok w → pids_ok (exec_all ops w).
Proof.
  revert w. induction ops as [|o ops IH]; intros w Hw; [done|].
  simpl. apply IH. by apply pids_ok_exec.
Qed.

(** C4: in every state of the file that a sequence of transactions (submit,
    the admission, checkpoint and final transactions of runNext, reconcile,
    prioritize, clearByStatus, in any interleaving) reaches from the missing
    file, each record of the Queue and of History has a pid exactly when its
    status is running. *)
Theorem pid_iff_running_reachable (ops : list op) :
  Forall pid_iff_running (job_queue (load_jobs (disk (exec_all ops init)))) ∧
  Forall pid_iff_running (job_history (load_jobs (disk (exec_all ops init)))).
Proof.
  destruct (pids_ok_exec_all ops init pids_ok_init) as (Hq & Hh & _).
  by split.
Qed.

(** ** Job ids *)

Lemma ids_ok_init : ids_ok init.
Proof.
  split_and!; simpl; [constructor|intros ? []%elem_of_nil..].
Qed.

(** Replacing the entry of a job that is in History once neither adds nor
    loses an id. *)
Lemma ids_replace_history (job : Job) (h : list Job) :
  NoDup (ids h) → job_id job ∈ ids h →
  ids (replace_history job h) ≡ₚ ids h.
Proof.
  unfold replace_history, ids. rewrite fmap_app. simpl.
  induction h as [|j h IH]; intros Hnd Hin; [by apply elem_of_nil in Hin|].
  simpl in Hnd, Hin. apply NoDup_cons in Hnd as [Hj Hnd].
  rewrite filter_cons. case_decide as Hid.
  - apply elem_of_cons in Hin as [Heq|Hin]; [congruence|].
    simpl. f_equiv. by apply IH.
  - rewrite filter_all.
    + simpl. rewrite Hid. symmetry. apply Permutation_cons_append.
    + apply Forall_forall. intros k Hk Heq. apply Hj.
      rewrite Hid, <- Heq. by apply list_elem_of_fmap_2.
Qed.

(** A transaction that keeps the ids of History, and whose queue and
    supervised jobs carry ids of History, keeps [ids_ok]. *)
Lemma ids_ok_same_ids (w : World) (q' h' sup' : list Job) :
  ids_ok w →
  ids h' ≡ₚ ids (job_history (load_jobs (disk w))) →
  (∀ j, j ∈ q' → job_id j ∈ ids (job_history (load_jobs (disk w)))) →
  (∀ j, j ∈ sup' → job_id j ∈ ids (job_history (load_jobs (disk w)))) →
  ids_ok (mkWorld (save_jobs q' h') sup').
Proof.
  intros (Hnd & Hbound & _ & _) Hperm Hq Hs.
  assert (Hlen : length h' = length (job_history (load_jobs (disk w)))).
  { apply Permutation_length in Hperm. unfold ids in Hperm.
    by rewrite !length_fmap in Hperm. }
  split_and!; simpl.
  - by rewrite Hperm.
  - intros x Hx. rewrite Hlen. apply Hbound. by rewrite <- Hperm.
  - intros j Hj. rewrite Hperm. by apply Hq.
  - intros j Hj. rewrite Hperm. by apply Hs.
Qed.

Lemma ids_ok_submit u c p m k (w : World) :
  ids_ok w → ids_ok (exec w (Submit u c p m k)).
Proof.
  intros (Hnd & Hbound & Hq & Hs).
  split_and!; simpl; unfold ids; rewrite ?fmap_app; simpl.
  - apply NoDup_app. split_and!; [done| |apply NoDup_singleton].
    intros x Hx ->%list_elem_of_singleton. apply Hbound in Hx. lia.
  - intros x [Hx| ->%list_elem_of_singleton]%elem_of_app;
      rewrite length_app; simpl; [apply Hbound in Hx|]; lia.
  - intros j [Hj| ->%list_elem_of_singleton]%elem_of_app;
      apply elem_of_app; [left; by apply Hq|right].
    simpl. apply list_elem_of_here.
  - intros j Hj. apply elem_of_app. left. by apply Hs.
Qed.

Lemma ids_ok_admit available popen (w : World) :
  ids_ok w → ids_ok (exec w (RunAdmit available popen)).
Proof.
  intros Hw. pose proof Hw as (Hnd & Hbound & Hq & Hs).
  simpl. unfold run_next_admit.
  destruct (job_queue (load_jobs (disk w))) as [|job q] eqn:Hqueue; [done|].
  assert (Hjob : job_id job ∈ ids (job_history (load_jobs (disk w)))).
  { apply Hq, list_elem_of_here. }
  destruct (available >=? memory job)%Z; simpl.
  - destruct (popen (command job)) as [pid0|]; simpl; [|done].
    apply (ids_ok_same_ids w); [done|by apply ids_replace_history|..].
    + intros j Hj. by apply Hq, list_elem_of_further.
    + intros j [Hj| ->%list_elem_of_singleton]%elem_of_app; [by apply Hs|done].
  - apply (ids_ok_same_ids w); [done..|]. exact Hs.
Qed.

Lemma reconcile_job_id ps (job : Job) :
  job_id (reconcile_job ps job) = job_id job.
Proof. unfold reconcile_job. by repeat case_match. Qed.

Lemma sweep_length ps (h : list Job) : length (sweep ps h) ≤ length h.
Proof. induction h as [|j h IH]; simpl; [done|]. case_decide; simpl; lia. Qed.

(** A sweep that drops nothing keeps the ids as they are. *)
Lemma sweep_full_ids ps (h : list Job) :
  length h ≤ length (sweep ps h) → ids (sweep ps h) = ids h.
Proof.
  induction h as [|j h IH]; simpl; [done|].
  case_decide; simpl; intros Hlen.
  - rewrite reconcile_job_id. f_equal. apply IH. lia.
  - pose proof (sweep_length ps h). lia.
Qed.

Lemma ids_ok_exec (w : World) (o : op) :
  keeps_entries w o = true → ids_ok w → ids_ok (exec w o).
Proof.
  intros Hkeep Hw.
  destruct o as [u c p m k|available popen|i|i rc|i|ps|id|st].
  - by apply ids_ok_submit.
  - by apply ids_ok_admit.
  - pose proof Hw as (Hnd & Hbound & Hq & Hs). simpl.
    destruct (supervised w !! i) as [job|] eqn:Hi; [|done].
    assert (job ∈ supervised w) by (apply list_elem_of_lookup; eauto).
    apply (ids_ok_same_ids w); [done| |done..].
    apply ids_replace_history; [done|by apply Hs].
  - pose proof Hw as (Hnd & Hbound & Hq & Hs). simpl.
    destruct (supervised w !! i) as [job|] eqn:Hi; [|done].
    assert (Hjob : job ∈ supervised w) by (apply list_elem_of_lookup; eauto).
    apply (ids_ok_same_ids w); [done| |done|].
    + apply (ids_replace_history (final_job rc job)); [done|].
      exact (Hs job Hjob).
    + intros j Hj%list_elem_of_delete_inv. by apply Hs.
  - destruct Hw as (Hnd & Hbound & Hq & Hs).
    split_and!; simpl; [done..|].
    intros j Hj%list_elem_of_delete_inv. by apply Hs.
  - pose proof Hw as (Hnd & Hbound & Hq & Hs).
    apply Nat.leb_le in Hkeep. simpl in Hkeep.
    apply (ids_ok_same_ids w); [done| |done..].
    by rewrite sweep_full_ids.
  - pose proof Hw as (Hnd & Hbound & Hq & Hs). simpl. unfold prioritize_job.
    destruct (list_find _ _) as [[i job]|] eqn:Hfind; [|done].
    apply list_find_Some in Hfind as (Hi & _ & _).
    apply (ids_ok_same_ids w); [done..| |done].
    intros j [->|Hj%list_elem_of_delete_inv]%elem_of_cons; apply Hq; [|done].
    apply list_elem_of_lookup; eauto.
  - pose proof Hw as (Hnd & Hbound & Hq & Hs).
    apply Nat.leb_le in Hkeep. simpl in Hkeep.
    apply (ids_ok_same_ids w); [done| |..|done].
    + by rewrite filter_full.
    + intros j [_ Hj]%list_elem_of_filter. by apply Hq.
Qed.

Lemma ids_ok_exec_all (ops : list op) (w : World) :
  nothing_removed ops w = true → ids_ok w → ids_ok (exec_all ops w).
Proof.
  revert w. induction ops as [|o ops IH]; intros w Hkeep Hw; [done|].
  simpl in Hkeep. apply andb_prop in Hkeep as [Ho Hops].
  simpl. apply IH; [done|]. by apply ids_ok_exec.
Qed.

(** Where the ids stay unique: submit gives the new job the id
    count(history) + 1 and puts it at the tail of Queue and History; from the
    missing file, every sequence of transactions in which no reconcile and
    no clearByStatus takes an entry out of History leaves History with
    pairwise different job ids. *)
Theorem ids_unique_while_nothing_removed :
  (∀ u c p m k f,
     let s := load_jobs f in
     let job := Job_init (Z.of_nat (length (job_history s)) + 1) u c p m k in
     load_jobs (submit_job u c p m k f)
       = mkStore (job_queue s ++ [job]) (job_history s ++ [job])) ∧
  (∀ ops, nothing_removed ops init = true →
     NoDup (ids (job_history (load_jobs (disk (exec_all ops init)))))).
Proof.
  split; [done|].
  intros ops Hkeep.
  by destruct (ids_ok_exec_all ops init Hkeep ids_ok_init) as [Hnd _].
Qed.

Lemma ids_unique_while_nothing_removed_witness :
  NoDup (ids (job_history (load_jobs (disk (exec_all ops_grow init))))).
Proof.
  apply (proj2 ids_unique_while_nothing_removed ops_grow). reflexivity.
Defined.

Lemma NoDup_ids_replace_history (job : Job) (h : list Job) :
  NoDup (ids h) → NoDup (ids (replace_history job h)).
Proof.
  intros Hnd. unfold replace_history, ids. rewrite fmap_app. simpl.
  apply NoDup_app. split_and!.
  - eapply sublist_NoDup; [exact Hnd|]. apply fmap_sublist, sublist_filter.
  - intros x (j & -> & [Hne _]%list_elem_of_filter)%list_elem_of_fmap_1.
    by intros Heq%list_elem_of_singleton.
  - apply NoDup_singleton.
Qed.

Lemma sweep_ids_sublist ps (h : list Job) :
  ids (sweep ps h) `sublist_of` ids h.
Proof.
  unfold ids. induction h as [|j h IH]; [done|].
  simpl. case_decide; simpl.
  - rewrite reconcile_job_id. by constructor.
  - by constructor.
Qed.

(** No transaction other than submit ever makes two History entries share
    an id, in whatever state it runs, prunings included. *)
Lemma non_submit_keeps_ids_unique (w : World) (o : op) :
  is_submit o = false →
  NoDup (ids (job_history (load_jobs (disk w)))) →
  NoDup (ids (job_history (load_jobs (disk (exec w o))))).
Proof.
  intros Hsub Hnd.
  destruct o as [u c p m k|available popen|i|i rc|i|ps|id|st];
    try discriminate Hsub.
  - assert (Hdisk : disk (exec w (RunAdmit available popen))
               = file_after (run_next_admit available popen (disk w)))
      by (simpl; by destruct (outcome _)).
    rewrite Hdisk. unfold run_next_admit.
    destruct (job_queue (load_jobs (disk w))) as [|job q]; simpl; [done|].
    destruct (available >=? memory job)%Z; simpl; [|done].
    destruct (popen (command job)); simpl; [|done].
    by apply NoDup_ids_replace_history.
  - simpl. destruct (supervised w !! i); [|done].
    simpl. by apply NoDup_ids_replace_history.
  - simpl. destruct (supervised w !! i); [|done].
    simpl. by apply NoDup_ids_replace_history.
  - done.
  - simpl. eapply sublist_NoDup; [exact Hnd|]. apply sweep_ids_sublist.
  - simpl. by rewrite prioritize_job_history.
  - simpl. eapply sublist_NoDup; [exact Hnd|].
    apply fmap_sublist, sublist_filter.
Qed.

(** C1 at the failing input: the first two submissions get the ids 1 and
    2; job 1 runs, exits with code zero and is pruned by reconcile, which
    leaves History with the one entry of job 2, ids still pairwise
    different; the third submission then gets count(history) + 1 = 2, the id
    that job 2 was given and still carries, and History has two entries with
    the same job id. *)
Theorem submit_reuses_job_id :
  let before := exec_all ops_pruned init in
  let after := exec before (Submit "carol" "ls" 3 4096 30) in
  ids (job_history (load_jobs (disk (exec_all (take 2 ops_reuse) init))))
    = [1%Z; 2%Z] ∧
  job_history (load_jobs (disk before)) = [Job_init 2 "bob" "make" 2 2048 20] ∧
  NoDup (ids (job_history (load_jobs (disk before)))) ∧
  exec_all ops_reuse init = after ∧
  job_history (load_jobs (disk after))
    = [ Job_init 2 "bob" "make" 2 2048 20;
        Job_init 2 "carol" "ls" 3 4096 30 ] ∧
  ¬ NoDup (ids (job_history (load_jobs (disk after)))).
Proof.
  intros before after.
  assert (Hbefore : job_history (load_jobs (disk before))
                    = [Job_init 2 "bob" "make" 2 2048 20]) by (by vm_compute).
  assert (Hafter : job_history (load_jobs (disk after))
                   = [ Job_init 2 "bob" "make" 2 2048 20;
                       Job_init 2 "carol" "ls" 3 4096 30 ])
    by (by vm_compute).
  split_and!.
  - by vm_compute.
  - done.
  - rewrite Hbefore. apply NoDup_singleton.
  - by vm_compute.
  - done.
  - rewrite Hafter. simpl. intros Hnd.
    apply NoDup_cons in Hnd as [Hnotin _].
    apply Hnotin, list_elem_of_here.
Qed.

(** ** Queue and History coherence *)

(** Coherence is kept by submit, reconcile, prioritize and clearByStatus,
    and by a History replacement for a job whose id no queue entry has. *)
Lemma coherent_submit u c p m k (f : jobs_file) :
  coherent (load_jobs f) → coherent (load_jobs (submit_job u c p m k f)).
Proof.
  intros Hco j. simpl.
  intros [Hj| ->%list_elem_of_singleton]%elem_of_app.
  - destruct (Hco j Hj) as [Hst Hin]. split; [done|].
    apply elem_of_app. by left.
  - split; [done|]. apply elem_of_app. right. apply list_elem_of_here.
Qed.

Lemma coherent_update ps (f : jobs_file) :
  coherent (load_jobs f) → coherent (load_jobs (update_job_status ps f)).
Proof.
  intros Hco j Hj. simpl in Hj. destruct (Hco j Hj) as [Hst Hin].
  split; [done|]. simpl. apply sweep_keeps; [done|by rewrite Hst..].
Qed.

Lemma coherent_prioritize id (f : jobs_file) :
  coherent (load_jobs f) → coherent (load_jobs (prioritize_job id f)).
Proof.
  intros Hco j. rewrite prioritize_job_history. unfold prioritize_job.
  destruct (list_find _ _) as [[i job]|] eqn:Hfind; [|apply Hco].
  apply list_find_Some in Hfind as (Hi & _ & _). simpl.
  intros [->|Hj%list_elem_of_delete_inv]%elem_of_cons; apply Hco; [|done].
  apply list_elem_of_lookup. eauto.
Qed.

Lemma coherent_clear st (f : jobs_file) :
  coherent (load_jobs f) → coherent (load_jobs (clear_jobs_by_status st f)).
Proof.
  intros Hco j. simpl. intros [Hne Hj]%list_elem_of_filter.
  destruct (Hco j Hj) as [Hst Hin]. split; [done|].
  by apply list_elem_of_filter.
Qed.

Lemma coherent_replace (job : Job) (q h : list Job) :
  coherent (mkStore q h) →
  (∀ j, j ∈ q → job_id j ≠ job_id job) →
  coherent (mkStore q (replace_history job h)).
Proof.
  intros Hco Hother j Hj. destruct (Hco j Hj) as [Hst Hin].
  split; [done|]. simpl. apply replace_history_other; [done|by apply Hother].
Qed.

Lemma coherent_admit available popen (f : jobs_file) :
  coherent (load_jobs f) →
  NoDup (ids (job_queue (load_jobs f))) →
  coherent (load_jobs (file_after (run_next_admit available popen f))).
Proof.
  intros Hco Hnd. unfold run_next_admit.
  destruct (load_jobs f) as [[|job q] h] eqn:Hload; simpl; [by rewrite Hload|].
  simpl in Hnd. apply NoDup_cons in Hnd as [Hjob _].
  assert (Hq : coherent (mkStore q h)).
  { intros j Hj. apply (Hco j). by apply list_elem_of_further. }
  destruct (available >=? memory job)%Z; simpl; [|done].
  destruct (popen (command job)) as [p|]; simpl; [|by rewrite Hload].
  apply coherent_replace; [done|].
  intros j Hj Heq. apply Hjob. simpl in Heq. rewrite <- Heq.
  by apply list_elem_of_fmap_2.
Qed.

Lemma disk_admit available popen (w : World) :
  disk (exec w (RunAdmit available popen))
    = file_after (run_next_admit available popen (disk w)).
Proof. simpl. by destruct (outcome _). Qed.

(** A job in the hands of a dispatcher shares its id with no queue entry. *)
Lemma supervised_not_queued (q sup : list Job) (job : Job) :
  NoDup (ids (q ++ sup)) → job ∈ sup →
  ∀ j, j ∈ q → job_id j ≠ job_id job.
Proof.
  unfold ids. rewrite fmap_app. intros (_ & Hdisj & _)%NoDup_app Hjob j Hj Heq.
  apply (Hdisj (job_id j)); [by apply list_elem_of_fmap_2|].
  rewrite Heq. by apply list_elem_of_fmap_2.
Qed.

Lemma sound_init : sound init.
Proof.
  split_and!; [apply ids_ok_init|intros ? []%elem_of_nil|constructor].
Qed.

Lemma sound_queue_ids (w : World) :
  sound w → NoDup (ids (job_queue (load_jobs (disk w)))).
Proof.
  intros (_ & _ & Hnd). unfold ids in *. rewrite fmap_app in Hnd.
  by apply NoDup_app in Hnd as [? _].
Qed.

Lemma sound_exec (w : World) (o : op) :
  keeps_entries w o = true → sound w → sound (exec w o).
Proof.
  intros Hkeep Hw. pose proof (sound_queue_ids w Hw) as Hqnd.
  destruct Hw as (Hids & Hco & Hnd).
  split; [by apply ids_ok_exec|].
  destruct o as [u c p m k|available popen|i|i rc|i|ps|id|st].
  - split; [by apply coherent_submit|]. simpl.
    rewrite <- (assoc_L (++)). unfold ids in *.
    rewrite fmap_app in *. simpl.
    rewrite <- Permutation_middle. apply NoDup_cons. split; [|done].
    destruct Hids as (_ & Hbound & Hq & Hs).
    intros [(j & Hid & Hj)%list_elem_of_fmap_1
           |(j & Hid & Hj)%list_elem_of_fmap_1]%elem_of_app.
    + apply Hq, Hbound in Hj. unfold ids in Hj. lia.
    + apply Hs, Hbound in Hj. unfold ids in Hj. lia.
  - split; [rewrite disk_admit; by apply coherent_admit|].
    simpl. unfold run_next_admit.
    destruct (job_queue (load_jobs (disk w))) as [|job q] eqn:Hqueue; simpl.
    { by rewrite Hqueue. }
    destruct (available >=? memory job)%Z; simpl; [|done].
    destruct (popen (command job)) as [p|]; simpl; [|by rewrite Hqueue].
    revert Hnd. unfold ids. rewrite !fmap_app. simpl.
    by rewrite (assoc_L (++)), <- Permutation_cons_append.
  - simpl. destruct (supervised w !! i) as [job|] eqn:Hi; [|done].
    split; [|done]. simpl. destruct (load_jobs (disk w)) as [q h].
    apply coherent_replace; [done|].
    apply (supervised_not_queued q (supervised w)); [done|].
    apply list_elem_of_lookup. eauto.
  - simpl. destruct (supervised w !! i) as [job|] eqn:Hi; [|done].
    split; simpl.
    + destruct (load_jobs (disk w)) as [q h].
      apply coherent_replace; [done|].
      apply (supervised_not_queued q (supervised w) job); [done|].
      apply list_elem_of_lookup. eauto.
    + eapply sublist_NoDup; [exact Hnd|].
      apply fmap_sublist, sublist_app; [done|apply sublist_delete].
  - split; [done|]. simpl.
    eapply sublist_NoDup; [exact Hnd|].
    apply fmap_sublist, sublist_app; [done|apply sublist_delete].
  - split; [by apply coherent_update|done].
  - split; [by apply coherent_prioritize|].
    simpl. unfold prioritize_job.
    destruct (list_find _ _) as [[i job]|] eqn:Hfind; [|done].
    apply list_find_Some in Hfind as (Hi & _ & _). simpl.
    unfold ids in *. by rewrite (delete_Permutation _ _ _ Hi) in Hnd.
  - split; [by apply coherent_clear|]. simpl.
    eapply sublist_NoDup; [exact Hnd|].
    apply fmap_sublist, sublist_app; [apply sublist_filter|done].
Qed.

(** As long as no entry has been taken out of History, every queue entry
    is queued and has its copy in History. *)
Lemma coherent_while_nothing_removed (ops : list op) :
  nothing_removed ops init = true →
  coherent (load_jobs (disk (exec_all ops init))).
Proof.
  intros Hkeep.
  cut (sound (exec_all ops init)); [by intros (_ & ? & _)|].
  revert Hkeep. generalize sound_init. generalize init.
  induction ops as [|o ops IH]; intros w Hw Hkeep; [done|].
  simpl in Hkeep. apply andb_prop in Hkeep as [Ho Hops].
  simpl. apply IH; [by apply sound_exec|done].
Qed.

(** C7 at the failing input: the Queue keeps the third job, and History has
    no entry for it. *)
Theorem queue_entry_loses_history :
  let carol := Job_init 2 "carol" "ls" 3 4096 30 in
  let s := load_jobs (disk (exec_all ops_orphan init)) in
  coherent (load_jobs (disk (exec_all ops_reuse init))) ∧
  s = mkStore [carol]
              [mkJob 2 "bob" "make" 2 2048 20 "running" (Some 4243%Z)] ∧
  carol ∈ job_queue s ∧
  (carol ∉ job_history s) ∧
  ¬ coherent s.
Proof.
  intros carol s.
  assert (Hs : s = mkStore [carol]
             [mkJob 2 "bob" "make" 2 2048 20 "running" (Some 4243%Z)])
    by (by vm_compute).
  assert (Hout : carol ∉ job_history s).
  { rewrite Hs. simpl. intros Hin%list_elem_of_singleton. discriminate Hin. }
  split_and!.
  - intros j Hj. vm_compute in Hj.
    apply elem_of_cons in Hj as [->|Hj%list_elem_of_singleton].
    + split; [done|]. vm_compute. apply list_elem_of_here.
    + subst j. split; [done|]. vm_compute.
      apply list_elem_of_further, list_elem_of_here.
  - done.
  - rewrite Hs. apply list_elem_of_here.
  - done.
  - intros Hco. destruct (Hco carol) as [_ Hin]; [|done].
    rewrite Hs. apply list_elem_of_here.
Qed.

(** ** What is written is what is read *)

Lemma from_dict_to_dict_id (job : Json.PyJob) :
  Json.from_dict (Json.to_dict job) = inr job.
Proof. by destruct job. Qed.

Lemma from_dicts_to_dicts (jobs : list Json.PyJob) :
  Json.from_dicts (Json.to_dict <$> jobs) = inr jobs.
Proof.
  induction jobs as [|job jobs IH]; [done|].
  rewrite fmap_cons. cbn [Json.from_dicts].
  rewrite from_dict_to_dict_id. cbn [bind_exn]. by rewrite IH.
Qed.

(** X1: a job written with [to_dict] and read with [from_dict] is the same
    job, attribute for attribute, whatever the attributes hold; so two jobs
    with the same dict are the same job. *)
Theorem job_dict_round_trip :
  (∀ job, Json.from_dict (Json.to_dict job) = inr job) ∧
  (∀ job1 job2, Json.to_dict job1 = Json.to_dict job2 → job1 = job2).
Proof.
  split; [apply from_dict_to_dict_id|].
  intros job1 job2 Heq.
  pose proof (from_dict_to_dict_id job1) as H1. rewrite Heq in H1.
  rewrite from_dict_to_dict_id in H1. by injection H1.
Qed.

Lemma job_dict_round_trip_witness :
  Json.of_job crashed = Json.of_job crashed.
Proof.
  apply (proj2 job_dict_round_trip (Json.of_job crashed)
                                   (Json.of_job crashed)).
  reflexivity.
Defined.

(** X2: [load_jobs] gives back the queue and the history that [save_jobs]
    wrote, and two empty collections for a missing file; on the files the
    transactions write, it reads the records of their [Store]. *)
Theorem load_jobs_reads_what_save_jobs_wrote :
  (∀ q h, Json.load_jobs (Some (Json.save_jobs q h)) = inr (q, h)) ∧
  Json.load_jobs None = inr ([], []) ∧
  (∀ f, Json.load_jobs (Json.file_of f)
        = inr (Json.of_job <$> job_queue (load_jobs f),
               Json.of_job <$> job_history (load_jobs f))) ∧
  (∀ j, Json.as_job (Json.of_job j) = Some j).
Proof.
  assert (Hrt : ∀ q h, Json.load_jobs (Some (Json.save_jobs q h))
                       = inr (q, h)).
  { intros q h. unfold Json.load_jobs, Json.save_jobs.
    change (list_to_map _ !! "job_queue")
      with (Some (Json.to_dict <$> q)).
    cbv beta iota. rewrite from_dicts_to_dicts. cbn [bind_exn].
    change (list_to_map _ !! "job_history")
      with (Some (Json.to_dict <$> h)).
    cbv beta iota. by rewrite from_dicts_to_dicts. }
  split_and!; [done|done| |].
  - intros [s|]; [apply Hrt|done].
  - intros [i u c p m k s [x|]]; done.
Qed.

(** X3: [from_dict] succeeds exactly when the seven keys it indexes are
    there, and then each attribute is the value at its key; ['pid'] may be
    missing and then reads as [None]; other keys play no part. *)
Theorem from_dict_reads_keys (data : gmap string Json.pyval)
    (job : Json.PyJob) :
  Json.from_dict data = inr job ↔
    data !! "job_id" = Some (Json.attr_job_id job) ∧
    data !! "user" = Some (Json.attr_user job) ∧
    data !! "command" = Some (Json.attr_command job) ∧
    data !! "priority" = Some (Json.attr_priority job) ∧
    data !! "memory" = Some (Json.attr_memory job) ∧
    data !! "compute" = Some (Json.attr_compute job) ∧
    data !! "status" = Some (Json.attr_status job) ∧
    Json.attr_pid job = default Json.PyNone (data !! "pid").
Proof.
  unfold Json.from_dict, Json.getitem, Json.get.
  destruct job as [a1 a2 a3 a4 a5 a6 a7 a8]. simpl. split.
  - intros H.
    destruct (data !! "job_id"); [|done].
    destruct (data !! "user"); [|done].
    destruct (data !! "command"); [|done].
    destruct (data !! "priority"); [|done].
    destruct (data !! "memory"); [|done].
    destruct (data !! "compute"); [|done].
    destruct (data !! "status"); [|done].
    simpl in H. injection H as -> -> -> -> -> -> -> <-.
    split_and!; try done; by destruct (data !! "pid").
  - intros (-> & -> & -> & -> & -> & -> & -> & ->). simpl.
    by destruct (data !! "pid").
Qed.

(** X4: when [from_dict] fails, it is with the [KeyError] of the first of
    the seven keys, in reading order, that the dict lacks; a missing ['pid']
    is never an error. *)
Theorem from_dict_KeyError (data : gmap string Json.pyval) (e : exn) :
  Json.from_dict data = inl e ↔
    ∃ i key, e = KeyError key ∧
      list_find (λ k, data !! k = None) Json.required_keys = Some (i, key).
Proof.
  unfold Json.from_dict, Json.getitem, Json.required_keys.
  assert (Hmiss : ∀ (i : nat) (k : string),
            inl (KeyError k) = inl (B := Json.PyJob) e ↔
            ∃ i' key, e = KeyError key ∧ Some (i, k) = Some (i', key)).
  { intros i k. split; [intros [= <-]; eauto|].
    by intros (i' & key & -> & [= _ <-]). }
  cbn. destruct (data !! "job_id"); [|cbn; apply Hmiss].
  destruct (data !! "user"); [|cbn; apply Hmiss].
  destruct (data !! "command"); [|cbn; apply Hmiss].
  destruct (data !! "priority"); [|cbn; apply Hmiss].
  destruct (data !! "memory"); [|cbn; apply Hmiss].
  destruct (data !! "compute"); [|cbn; apply Hmiss].
  destruct (data !! "status"); [|cbn; apply Hmiss].
  split; [done|]. by intros (i & key & _ & ?).
Qed.

(** ** One History entry per dispatched job *)

Lemma filter_own_of_others (id : Z) (h : list Job) :
  filter (λ j, job_id j = id) (filter (λ j, job_id j ≠ id) h) = [].
Proof.
  induction h as [|j h IH]; [done|].
  rewrite (filter_cons (λ j, job_id j ≠ id)). case_decide; [|done].
  by rewrite filter_cons_False.
Qed.

Lemma filter_others_of_others (id : Z) (h : list Job) :
  filter (λ j, job_id j ≠ id) (filter (λ j, job_id j ≠ id) h)
  = filter (λ j, job_id j ≠ id) h.
Proof. apply filter_all, Forall_filter_holds. Qed.

(** After a replacement the job is the last entry and the only one with its
    id, and the entries with other ids are the ones there were, in order. *)
Lemma replace_history_spec (job : Job) (h : list Job) :
  last (replace_history job h) = Some job ∧
  filter (λ j, job_id j = job_id job) (replace_history job h) = [job] ∧
  filter (λ j, job_id j ≠ job_id job) (replace_history job h)
    = filter (λ j, job_id j ≠ job_id job) h.
Proof.
  unfold replace_history. split_and!.
  - apply last_snoc.
  - rewrite filter_app, filter_own_of_others. simpl.
    by rewrite filter_cons_True.
  - rewrite filter_app, filter_others_of_others.
    rewrite filter_cons_False by (intros H; by apply H).
    apply app_nil_r.
Qed.

Lemma replace_history_twice (job1 job2 : Job) (h : list Job) :
  job_id job1 = job_id job2 →
  replace_history job2 (replace_history job1 h) = replace_history job2 h.
Proof.
  intros Hid. unfold replace_history. rewrite <- Hid.
  rewrite filter_app, filter_others_of_others.
  rewrite filter_cons_False by (intros H; by apply H).
  by rewrite app_nil_r.
Qed.

(** X5: when the head of the Queue fits in the available memory and the
    launch succeeds, the first transaction of runNext calls [Popen] once,
    with the head's command; the saved Queue is the old one without its
    head; the head, now running with the child's pid, is the last entry of
    History and the only one with its id; the entries with other ids are
    untouched. *)
Theorem run_next_dispatches_head (available : Z)
    (popen : string → popen_result) (f : jobs_file)
    (job : Job) (q h : list Job) (p : Z) :
  load_jobs f = mkStore (job :: q) h →
  (memory job <= available)%Z →
  popen (command job) = Spawned p →
  let r := run_next_admit available popen f in
  let running := set_pid (Some p) (set_status "running" job) in
  let s' := load_jobs (file_after r) in
  outcome r = Dispatched running ∧
  popen_calls r = [command job] ∧
  job_queue s' = q ∧
  last (job_history s') = Some running ∧
  filter (λ j, job_id j = job_id job) (job_history s') = [running] ∧
  filter (λ j, job_id j ≠ job_id job) (job_history s')
    = filter (λ j, job_id j ≠ job_id job) h.
Proof.
  intros Hload Hmem Hpopen. simpl.
  assert (Hr : run_next_admit available popen f
               = mkRun (save_jobs q (replace_history
                          (set_pid (Some p) (set_status "running" job)) h))
                       (Dispatched (set_pid (Some p)
                                      (set_status "running" job)))
                       [command job]).
  { unfold run_next_admit. rewrite Hload. simpl.
    destruct (Z.geb_spec available (memory job)); [|lia].
    by rewrite Hpopen. }
  rewrite Hr. simpl. split_and!; try done;
    apply (replace_history_spec
             (set_pid (Some p) (set_status "running" job)) h).
Qed.

Lemma run_next_dispatches_head_witness :
  let a := Job_init 1 "alice" "true" 1 1048576 10 in
  let b := Job_init 2 "bob" "make" 2 2048 20 in
  let r := run_next_admit 1073741824 (λ _, Spawned 4242)
             (save_jobs [a; b] [a; b]) in
  let running := set_pid (Some 4242%Z) (set_status "running" a) in
  let s' := load_jobs (file_after r) in
  outcome r = Dispatched running ∧
  popen_calls r = [command a] ∧
  job_queue s' = [b] ∧
  last (job_history s') = Some running ∧
  filter (λ j, job_id j = job_id a) (job_history s') = [running] ∧
  filter (λ j, job_id j ≠ job_id a) (job_history s')
    = filter (λ j, job_id j ≠ job_id a) [a; b].
Proof.
  intros a b.
  apply (run_next_dispatches_head 1073741824 (λ _, Spawned 4242)
           (save_jobs [a; b] [a; b]) a [b] [a; b] 4242).
  - reflexivity.
  - simpl. lia.
  - reflexivity.
Defined.

(** X6: a checkpoint and the final update write the dispatcher's record
    over whatever History holds for its id, also when another transaction
    has removed or changed that entry in between: afterwards the record is
    the last entry and the only one with its id, entries with other ids and
    the Queue are as they were; the final record has status executed exactly
    when the exit code is zero, failed otherwise, and no pid. *)
Theorem run_next_writes_own_record (job : Job) (f : jobs_file) :
  (let s' := load_jobs (run_next_checkpoint job f) in
   job_queue s' = job_queue (load_jobs f) ∧
   last (job_history s') = Some job ∧
   filter (λ j, job_id j = job_id job) (job_history s') = [job] ∧
   filter (λ j, job_id j ≠ job_id job) (job_history s')
     = filter (λ j, job_id j ≠ job_id job) (job_history (load_jobs f))) ∧
  (∀ returncode,
   let s' := load_jobs (run_next_finalize job returncode f) in
   let final := final_job returncode job in
   job_queue s' = job_queue (load_jobs f) ∧
   last (job_history s') = Some final ∧
   filter (λ j, job_id j = job_id job) (job_history s') = [final] ∧
   filter (λ j, job_id j ≠ job_id job) (job_history s')
     = filter (λ j, job_id j ≠ job_id job) (job_history (load_jobs f)) ∧
   job_id final = job_id job ∧
   pid final = None ∧
   (status final = "executed" ↔ returncode = 0%Z) ∧
   (status final = "failed" ↔ returncode ≠ 0%Z)).
Proof.
  split.
  - simpl. split; [done|]. apply replace_history_spec.
  - intros rc. simpl. split; [done|].
    destruct (replace_history_spec (final_job rc job)
                (job_history (load_jobs f))) as (Hlast & Hown & Hothers).
    split_and!; try done.
    + destruct (Z.eqb_spec rc 0); simpl; split; (done || lia).
    + destruct (Z.eqb_spec rc 0); simpl; split; (done || lia).
Qed.

(** X7: with nobody else writing the file, the checkpoints of the polling
    loop change nothing: a whole runNext invocation leaves the same file
    whatever the number of polls, and a dispatched job ends as one History
    entry with its final status. *)
Theorem run_next_job_polls_irrelevant (available : Z)
    (popen : string → popen_result) (polls : nat) (returncode : Z)
    (f : jobs_file) :
  run_next_job available popen polls returncode f
    = run_next_job available popen 0 returncode f ∧
  ∀ job, outcome (run_next_admit available popen f) = Dispatched job →
    load_jobs (run_next_job available popen polls returncode f)
      = mkStore (tail (job_queue (load_jobs f)))
                (replace_history (final_job returncode job)
                                 (job_history (load_jobs f))).
Proof.
  assert (Hiter : ∀ job q h n,
            Nat.iter n (run_next_checkpoint job)
                     (save_jobs q (replace_history job h))
            = save_jobs q (replace_history job h)).
  { intros job q h n. induction n as [|n IH]; [done|].
    simpl. rewrite IH. unfold run_next_checkpoint. simpl.
    by rewrite replace_history_twice. }
  unfold run_next_job, run_next_admit.
  destruct (job_queue (load_jobs f)) as [|job q] eqn:Hq; simpl; [done|].
  destruct (available >=? memory job)%Z; simpl; [|done].
  destruct (popen (command job)) as [p|]; simpl; [|done].
  rewrite Hiter. split; [done|].
  intros job' [= <-]. unfold run_next_finalize. simpl.
  by rewrite replace_history_twice.
Qed.

Lemma run_next_job_polls_irrelevant_witness :
  let a := Job_init 1 "alice" "true" 1 1048576 10 in
  load_jobs (run_next_job 1073741824 (λ _, Spawned 4242) 5 0
               (save_jobs [a] [a]))
  = mkStore [] [set_status "executed" a].
Proof.
  intros a.
  apply (proj2 (run_next_job_polls_irrelevant 1073741824
                  (λ _, Spawned 4242) 5 0 (save_jobs [a] [a]))
               (set_pid (Some 4242%Z) (set_status "running" a))).
  reflexivity.
Defined.

(** X8: one invocation of runNext calls [Popen] at most once, and it does
    so exactly when the Queue is not empty and its head fits in the
    available memory; the command is then the head's. *)
Theorem run_next_popen_calls (available : Z) (popen : string → popen_result)
    (f : jobs_file) :
  let calls := popen_calls (run_next_admit available popen f) in
  (calls = [] ∨ ∃ job, head (job_queue (load_jobs f)) = Some job ∧
                       calls = [command job]) ∧
  (calls ≠ [] ↔ ∃ job, head (job_queue (load_jobs f)) = Some job ∧
                       (memory job <= available)%Z).
Proof.
  simpl. unfold run_next_admit.
  destruct (job_queue (load_jobs f)) as [|job q]; simpl.
  { split; [by left|]. split; [done|]. by intros (job & ? & _). }
  destruct (Z.geb_spec available (memory job)).
  - assert (Hfits : ∃ job', Some job = Some job' ∧
                             (memory job' <= available)%Z)
      by (exists job; split; [done|lia]).
    destruct (popen _); simpl; (split; [right; eauto|done]).
  - simpl. split; [by left|]. split; [done|].
    intros (job' & [= <-] & ?). lia.
Qed.

(** ** Records in reachable states *)

Lemma known_status_cases (j : Job) :
  known_status j ↔
  status j = "queued" ∨ status j = "running" ∨
  status j = "executed" ∨ status j = "failed".
Proof.
  unfold known_status. rewrite !elem_of_cons, elem_of_nil. tauto.
Qed.

Lemma known_status_reconcile ps (j : Job) :
  known_status j → known_status (reconcile_job ps j).
Proof.
  intros Hj. unfold reconcile_job.
  repeat case_match; try done; apply known_status_cases; simpl; tauto.
Qed.

Lemma records_ok_init : records_ok init.
Proof. repeat split; constructor. Qed.

Lemma records_ok_admit available popen (w : World) :
  records_ok w → records_ok (exec w (RunAdmit available popen)).
Proof.
  intros (Hq & Hh & Hs). simpl. unfold run_next_admit.
  destruct (job_queue (load_jobs (disk w))) as [|job q] eqn:Hqueue.
  { simpl. unfold records_ok. simpl. by rewrite Hqueue. }
  apply Forall_cons in Hq as [(Hst & Hpid & Hid) Hq].
  destruct (available >=? memory job)%Z; simpl.
  - destruct (popen (command job)) as [p|]; simpl.
    + split_and!; simpl.
      * done.
      * apply Forall_replace_history; [done|]. split; [|done].
        apply known_status_cases. simpl. tauto.
      * apply Forall_app. split; [done|]. by apply Forall_singleton.
    + unfold records_ok. simpl. rewrite Hqueue.
      split_and!; [by constructor|done..].
  - split_and!; simpl; [by constructor|done..].
Qed.

Lemma records_ok_exec (w : World) (o : op) :
  records_ok w → records_ok (exec w o).
Proof.
  intros Hw. destruct o as [u c p m k|available popen|i|i rc|i|ps|id|st];
    try (by apply records_ok_admit); destruct Hw as (Hq & Hh & Hs).
  - split_and!; simpl; [| |done];
      (apply Forall_app; split; [done|]); apply Forall_singleton; simpl.
    + split_and!; [done..|lia].
    + split; [|lia]. apply known_status_cases. simpl. tauto.
  - simpl. destruct (supervised w !! i) as [job|] eqn:Hi; [|done].
    destruct (Forall_lookup_1 _ _ _ _ Hs Hi) as [Hst Hid].
    split_and!; simpl; [done| |done].
    apply Forall_replace_history; [done|]. split; [|done].
    apply known_status_cases. tauto.
  - simpl. destruct (supervised w !! i) as [job|] eqn:Hi; [|done].
    destruct (Forall_lookup_1 _ _ _ _ Hs Hi) as [Hst Hid].
    split_and!; simpl; [done| |by apply Forall_delete].
    apply Forall_replace_history; [done|]. split; [|done].
    apply known_status_cases. simpl. destruct (rc =? 0)%Z; tauto.
  - split_and!; simpl; [done..|by apply Forall_delete].
  - split_and!; simpl; [done| |done].
    apply Forall_sweep; [|done]. intros j [Hst Hid]. split.
    + by apply known_status_reconcile.
    + by rewrite reconcile_job_id.
  - simpl. unfold prioritize_job.
    destruct (list_find _ _) as [[i job]|] eqn:Hfind; [|done].
    apply list_find_Some in Hfind as (Hi & _ & _).
    split_and!; simpl; [|done..].
    constructor; [exact (Forall_lookup_1 _ _ _ _ Hq Hi)|by apply Forall_delete].
  - split_and!; simpl; [by apply Forall_status_filter..|done].
Qed.

Lemma records_ok_exec_all (ops : list op) (w : World) :
  records_ok w → records_ok (exec_all ops w).
Proof.
  revert w. induction ops as [|o ops IH]; intros w Hw; [done|].
  simpl. apply IH. by apply records_ok_exec.
Qed.

(** X9: in every state that transactions, in any interleaving, reach from
    the missing file, each Queue entry has status queued and no pid; this
    half of the queue/History coherence does not depend on job ids being
    unique. *)
Theorem queue_entries_are_queued (ops : list op) :
  Forall (λ j, status j = "queued" ∧ pid j = None)
         (job_queue (load_jobs (disk (exec_all ops init)))).
Proof.
  destruct (records_ok_exec_all ops init records_ok_init) as (Hq & _ & _).
  eapply Forall_impl; [exact Hq|]. by intros j (? & ? & _).
Qed.

(** X10: in every reachable state, each History entry has one of the four
    statuses queued, running, executed, failed, and a job id of at least
    1. *)
Theorem history_statuses_known (ops : list op) :
  Forall (λ j, known_status j ∧ (1 ≤ job_id j)%Z)
         (job_history (load_jobs (disk (exec_all ops init)))).
Proof.
  by destruct (records_ok_exec_all ops init records_ok_init) as (_ & Hh & _).
Qed.

(** X11: in a reachable state, clearByStatus of any status other than
    queued leaves the Queue as it is, and clearByStatus("queued") empties
    it. *)
Theorem clear_on_reachable_queue (ops : list op) (st : string) :
  let f := disk (exec_all ops init) in
  (st ≠ "queued" →
   job_queue (load_jobs (clear_jobs_by_status st f))
     = job_queue (load_jobs f)) ∧
  job_queue (load_jobs (clear_jobs_by_status "queued" f)) = [].
Proof.
  simpl.
  destruct (records_ok_exec_all ops init records_ok_init) as (Hq & _ & _).
  split.
  - intros Hne. apply filter_all.
    eapply Forall_impl; [exact Hq|]. intros j (Hst & _). by rewrite Hst.
  - induction Hq as [|j q (Hst & _) _ IH]; [done|].
    rewrite filter_cons_False; [done|]. intros Hne. by apply Hne.
Qed.

Lemma clear_on_reachable_queue_witness :
  job_queue (load_jobs (clear_jobs_by_status "failed"
                          (disk (exec_all ops_reuse init))))
  = job_queue (load_jobs (disk (exec_all ops_reuse init))).
Proof.
  apply (proj1 (clear_on_reachable_queue ops_reuse "failed")). discriminate.
Defined.

(** X12: only submit adds a Queue entry: after any other transaction the
    Queue is a sub-multiset of the Queue before it; so a job that was
    dispatched is not queued again. *)
Theorem queue_grows_only_by_submit (w : World) (o : op) :
  is_submit o = false →
  job_queue (load_jobs (disk (exec w o)))
    ⊆+ job_queue (load_jobs (disk w)).
Proof.
  intros Hsub.
  destruct o as [u c p m k|available popen|i|i rc|i|ps|id|st];
    try discriminate Hsub.
  - rewrite disk_admit. unfold run_next_admit.
    destruct (job_queue (load_jobs (disk w))) as [|job q] eqn:Hq; simpl.
    { by rewrite Hq. }
    destruct (available >=? memory job)%Z; simpl; [|done].
    destruct (popen (command job)); simpl.
    + by apply submseteq_cons.
    + by rewrite Hq.
  - simpl. by destruct (supervised w !! i).
  - simpl. by destruct (supervised w !! i).
  - done.
  - done.
  - simpl. unfold prioritize_job.
    destruct (list_find _ _) as [[i job]|] eqn:Hfind; [|done].
    apply list_find_Some in Hfind as (Hi & _ & _). simpl.
    apply Permutation_submseteq. symmetry. by apply delete_Permutation.
  - simpl. apply sublist_submseteq, sublist_filter.
Qed.

Lemma queue_grows_only_by_submit_witness :
  job_queue (load_jobs (disk (exec (exec_all ops_reuse init)
                                   (RunAdmit 1073741824
                                             (λ _, Spawned 4243)))))
    ⊆+ job_queue (load_jobs (disk (exec_all ops_reuse init))).
Proof.
  apply (queue_grows_only_by_submit (exec_all ops_reuse init)
           (RunAdmit 1073741824 (λ _, Spawned 4243))).
  reflexivity.
Defined.

(** ** More on the reconciler *)

Lemma sweep_elem ps (h : list Job) (j : Job) :
  j ∈ sweep ps h ↔
  ∃ j0, j0 ∈ h ∧ j = reconcile_job ps j0 ∧ status j ≠ "executed".
Proof.
  induction h as [|k h IH]; simpl.
  { rewrite elem_of_nil. split; [done|]. by intros (? & []%elem_of_nil & _). }
  case_decide as Hst.
  - rewrite elem_of_cons, IH. split.
    + intros [->|(j0 & Hj0 & Heq & Hne)].
      * exists k. split_and!; [apply list_elem_of_here|done..].
      * exists j0. split_and!; [by apply list_elem_of_further|done..].
    + intros (j0 & [->|Hj0]%elem_of_cons & Heq & Hne); [by left|].
      right. by exists j0.
  - rewrite IH. split.
    + intros (j0 & Hj0 & Heq & Hne).
      exists j0. split_and!; [by apply list_elem_of_further|done..].
    + intros (j0 & [->|Hj0]%elem_of_cons & Heq & Hne).
      * subst j. by destruct Hst.
      * by exists j0.
Qed.

Lemma reconcile_job_cases ps (j : Job) :
  reconcile_job ps j = j ∨
  (status j = "running" ∧ is_Some (pid j) ∧
   (reconcile_job ps j = set_pid None (set_status "failed" j) ∨
    reconcile_job ps j = set_pid None (set_status "executed" j))).
Proof.
  unfold reconcile_job.
  destruct (pid j) as [p|] eqn:Hpid; [|by left].
  case_decide as Hst; [|by left].
  destruct (ps p) as [|st running].
  - right. split_and!; [done|by eexists|by left].
  - destruct (zombie_or_dead st); [right; split_and!; [done|by eexists|by right]|].
    destruct running; simpl; [by left|].
    right. split_and!; [done|by eexists|by left].
Qed.

Lemma reconcile_job_idempotent ps (j : Job) :
  reconcile_job ps (reconcile_job ps j) = reconcile_job ps j.
Proof.
  destruct (reconcile_job_cases ps j) as [Heq|(_ & _ & [Heq|Heq])];
    rewrite Heq; [done|done..].
Qed.

Lemma sweep_idempotent ps (h : list Job) :
  sweep ps (sweep ps h) = sweep ps h.
Proof.
  induction h as [|j h IH]; [done|].
  simpl. case_decide as Hst; [|done].
  simpl. rewrite reconcile_job_idempotent, decide_True by done.
  by rewrite IH.
Qed.

(** X13: after a reconcile against a process table, every History entry
    that is still running with a pid has a process in that table which is
    running and neither zombie nor dead. *)
Theorem update_job_status_converges (ps : Z → process_lookup)
    (f : jobs_file) (j : Job) (p : Z) :
  j ∈ job_history (load_jobs (update_job_status ps f)) →
  status j = "running" →
  pid j = Some p →
  ∃ st, ps p = Process st true ∧ zombie_or_dead st = false.
Proof.
  simpl. intros (j0 & _ & -> & _)%sweep_elem. unfold reconcile_job.
  destruct (pid j0) as [p0|] eqn:Hpid0; [|by rewrite Hpid0].
  case_decide as Hst0; [|done].
  destruct (ps p0) as [|st running] eqn:Hps; [done|].
  destruct (zombie_or_dead st) eqn:Hz; [done|].
  destruct running; simpl; [|done].
  rewrite Hpid0. intros _ [= <-]. eauto.
Qed.

Lemma update_job_status_converges_witness :
  ∃ st, (λ _ : Z, Process STATUS_SLEEPING true) 4242%Z = Process st true ∧
        zombie_or_dead st = false.
Proof.
  apply (update_job_status_converges (λ _, Process STATUS_SLEEPING true)
           (save_jobs [] [broken_job; crashed]) crashed 4242).
  - simpl. apply list_elem_of_further, list_elem_of_here.
  - reflexivity.
  - reflexivity.
Defined.

(** X14: reconciling twice against the same process table is the same as
    reconciling once. *)
Theorem update_job_status_idempotent (ps : Z → process_lookup)
    (f : jobs_file) :
  update_job_status ps (update_job_status ps f) = update_job_status ps f.
Proof.
  unfold update_job_status. simpl. by rewrite sweep_idempotent.
Qed.

(** X15: reconcile invents and reorders nothing: the ids of the History it
    saves are a subsequence of the ids it loaded, and each saved entry is
    an entry it loaded, either as it was or, if it was running with a pid,
    with status failed and the pid cleared. *)
Theorem update_job_status_provenance (ps : Z → process_lookup)
    (f : jobs_file) :
  ids (job_history (load_jobs (update_job_status ps f)))
    `sublist_of` ids (job_history (load_jobs f)) ∧
  ∀ j', j' ∈ job_history (load_jobs (update_job_status ps f)) →
    ∃ j, j ∈ job_history (load_jobs f) ∧
      (j' = j ∨
       (status j = "running" ∧ is_Some (pid j) ∧
        j' = set_pid None (set_status "failed" j))).
Proof.
  simpl. split.
  - induction (job_history (load_jobs f)) as [|j h IH]; [done|].
    simpl. case_decide; simpl.
    + rewrite reconcile_job_id. by constructor.
    + by constructor.
  - intros j' (j & Hj & -> & Hne)%sweep_elem. exists j. split; [done|].
    destruct (reconcile_job_cases ps j) as [Heq|(Hst & Hpid & [Heq|Heq])].
    + by left.
    + right. by rewrite Heq.
    + rewrite Heq in Hne. by destruct Hne.
Qed.

Lemma update_job_status_provenance_witness :
  ∃ j, j ∈ [broken_job; crashed] ∧
    (set_pid None (set_status "failed" crashed) = j ∨
     (status j = "running" ∧ is_Some (pid j) ∧
      set_pid None (set_status "failed" crashed)
        = set_pid None (set_status "failed" j))).
Proof.
  apply (proj2 (update_job_status_provenance (λ _, NoSuchProcess)
                  (save_jobs [] [broken_job; crashed]))
               (set_pid None (set_status "failed" crashed))).
  simpl. apply list_elem_of_further, list_elem_of_here.
Defined.

(** X16: when no History entry is running with a pid, reconcile asks
    nothing of the process table and only drops the executed entries. *)
Theorem update_job_status_nothing_running (ps : Z → process_lookup)
    (f : jobs_file) :
  Forall (λ j, ¬ (status j = "running" ∧ is_Some (pid j)))
         (job_history (load_jobs f)) →
  job_history (load_jobs (update_job_status ps f))
    = filter (λ j, status j ≠ "executed") (job_history (load_jobs f)).
Proof.
  simpl. induction 1 as [|j h Hj _ IH]; [done|].
  simpl. rewrite filter_cons.
  assert (reconcile_job ps j = j) as ->.
  { destruct (reconcile_job_cases ps j) as [Heq|(Hst & Hpid & _)]; [done|].
    by destruct Hj. }
  by rewrite IH.
Qed.

Lemma update_job_status_nothing_running_witness :
  job_history (load_jobs (update_job_status (λ _, NoSuchProcess)
     (save_jobs [] [broken_job; set_status "executed" broken_job])))
  = filter (λ j, status j ≠ "executed")
           [broken_job; set_status "executed" broken_job].
Proof.
  apply (update_job_status_nothing_running (λ _, NoSuchProcess)
           (save_jobs [] [broken_job; set_status "executed" broken_job])).
  simpl. repeat constructor; by intros [? ?].
Defined.

(** ** Queue order *)

Section two_filters.
Context {A : Type} (P Q : A → Prop).
Context `{!∀ x, Decision (P x), !∀ x, Decision (Q x)}.

Lemma filter_comm (l : list A) :
  filter P (filter Q l) = filter Q (filter P l).
Proof.
  rewrite !list_filter_filter. apply list_filter_iff. tauto.
Qed.

End two_filters.

(** X17: prioritize only reorders the Queue (same entries, as often), and
    prioritizing the same id a second time changes nothing. *)
Theorem prioritize_job_idempotent (id : Z) (f : jobs_file) :
  prioritize_job id (prioritize_job id f) = prioritize_job id f ∧
  job_queue (load_jobs (prioritize_job id f)) ≡ₚ job_queue (load_jobs f) ∧
  length (job_queue (load_jobs (prioritize_job id f)))
    = length (job_queue (load_jobs f)).
Proof.
  assert (Hperm : job_queue (load_jobs (prioritize_job id f))
                  ≡ₚ job_queue (load_jobs f)).
  { unfold prioritize_job.
    destruct (list_find _ _) as [[i job]|] eqn:Hfind; [|done].
    apply list_find_Some in Hfind as (Hi & _ & _). simpl.
    symmetry. by apply delete_Permutation. }
  split_and!; [|done|by rewrite Hperm].
  unfold prioritize_job at 2 3.
  destruct (list_find _ _) as [[i job]|] eqn:Hfind.
  - pose proof Hfind as (_ & Hid & _)%list_find_Some.
    unfold prioritize_job. simpl. by rewrite decide_True.
  - unfold prioritize_job. by rewrite Hfind.
Qed.

(** X18: after prioritize(id) on a Queue that has a job with that id, the
    next runNext deals with that job, the first of the Queue with the id:
    it holds it, launches it or fails to launch it, whatever was at the head
    before. *)
Theorem prioritize_then_run_next (id : Z) (f : jobs_file) (available : Z)
    (popen : string → popen_result) :
  (∃ j, j ∈ job_queue (load_jobs f) ∧ job_id j = id) →
  ∃ pre job post,
    job_queue (load_jobs f) = pre ++ job :: post ∧
    job_id job = id ∧
    Forall (λ j, job_id j ≠ id) pre ∧
    outcome (run_next_admit available popen (prioritize_job id f))
    = if (available >=? memory job)%Z then
        match popen (command job) with
        | Spawned p =>
            Dispatched (set_pid (Some p) (set_status "running" job))
        | PopenRaises => LaunchRaised (set_status "running" job)
        end
      else OnHold job.
Proof.
  intros (j & Hj & Hid).
  destruct (list_find_elem_of (λ j, job_id j = id) _ j Hj Hid)
    as [[i job] Hfind].
  pose proof Hfind as (Hi & Hjob & Hbefore)%list_find_Some.
  exists (take i (job_queue (load_jobs f))), job,
         (drop (S i) (job_queue (load_jobs f))).
  split_and!.
  - by rewrite take_drop_middle.
  - done.
  - apply Forall_lookup. intros k y Hk.
    apply lookup_take_Some in Hk as [Hy Hlt]. by eapply Hbefore.
  - unfold prioritize_job. rewrite Hfind. unfold run_next_admit. simpl.
    destruct (available >=? memory job)%Z; [|done].
    by destruct (popen (command job)).
Qed.

Lemma prioritize_then_run_next_witness :
  let a := Job_init 1 "alice" "true" 1 1048576 10 in
  let b := Job_init 2 "bob" "make" 2 2048 20 in
  ∃ pre job post,
    [a; b] = pre ++ job :: post ∧
    job_id job = 2%Z ∧
    Forall (λ j, job_id j ≠ 2%Z) pre ∧
    outcome (run_next_admit 1073741824 (λ _, Spawned 4242)
               (prioritize_job 2 (save_jobs [a; b] [a; b])))
    = if (1073741824 >=? memory job)%Z then
        Dispatched (set_pid (Some 4242%Z) (set_status "running" job))
      else OnHold job.
Proof.
  intros a b.
  apply (prioritize_then_run_next 2 (save_jobs [a; b] [a; b]) 1073741824
           (λ _, Spawned 4242)).
  exists b. split; [|reflexivity].
  simpl. apply list_elem_of_further, list_elem_of_here.
Defined.

(** X19: clearByStatus is idempotent, and two clearByStatus transactions
    give the same file in either order. *)
Theorem clear_jobs_by_status_commutes (st1 st2 : string) (f : jobs_file) :
  clear_jobs_by_status st1 (clear_jobs_by_status st1 f)
    = clear_jobs_by_status st1 f ∧
  clear_jobs_by_status st1 (clear_jobs_by_status st2 f)
    = clear_jobs_by_status st2 (clear_jobs_by_status st1 f).
Proof.
  unfold clear_jobs_by_status. simpl. split.
  - by rewrite !(filter_all _ (filter _ _)) by apply Forall_filter_holds.
  - unfold save_jobs.
    by rewrite !(filter_comm (λ j, status j ≠ st1) (λ j, status j ≠ st2)).
Qed.

(** X20: submit does not change which job runNext takes: on a non-empty
    Queue, the first transaction of runNext after a submit holds, launches
    or fails to launch the same job as it would have before the submit. *)
Theorem submit_keeps_head (u c : string) (p m k : Z) (f : jobs_file)
    (available : Z) (popen : string → popen_result) :
  job_queue (load_jobs f) ≠ [] →
  let f' := submit_job u c p m k f in
  head (job_queue (load_jobs f')) = head (job_queue (load_jobs f)) ∧
  outcome (run_next_admit available popen f')
    = outcome (run_next_admit available popen f) ∧
  popen_calls (run_next_admit available popen f')
    = popen_calls (run_next_admit available popen f).
Proof.
  intros Hne. simpl. unfold run_next_admit, submit_job. simpl.
  destruct (job_queue (load_jobs f)) as [|job q]; [done|]. simpl.
  split; [done|].
  destruct (available >=? memory job)%Z; [|done].
  by destruct (popen (command job)).
Qed.

Lemma submit_keeps_head_witness :
  let a := Job_init 1 "alice" "true" 1 1048576 10 in
  let f := save_jobs [a] [a] in
  let f' := submit_job "bob" "make" 2 2048 20 f in
  head (job_queue (load_jobs f')) = head (job_queue (load_jobs f)) ∧
  outcome (run_next_admit 1073741824 (λ _, Spawned 4242) f')
    = outcome (run_next_admit 1073741824 (λ _, Spawned 4242) f) ∧
  popen_calls (run_next_admit 1073741824 (λ _, Spawned 4242) f')
    = popen_calls (run_next_admit 1073741824 (λ _, Spawned 4242) f).
Proof.
  intros a f.
  apply (submit_keeps_head "bob" "make" 2 2048 20 f 1073741824
           (λ _, Spawned 4242)).
  discriminate.
Defined.

Lemma submit_all_history (subs : list submission) (f : jobs_file) :
  load_jobs (foldl submit f subs)
  = mkStore
      (job_queue (load_jobs f)
         ++ imap (λ i, job_of (length (job_history (load_jobs f)) + i)) subs)
      (job_history (load_jobs f)
         ++ imap (λ i, job_of (length (job_history (load_jobs f)) + i)) subs).
Proof.
  revert f. induction subs as [|s subs IH]; intros f.
  { simpl. rewrite !app_nil_r. by destruct (load_jobs f). }
  simpl. rewrite IH.
  assert (Hs : load_jobs (submit f s)
               = mkStore
                   (job_queue (load_jobs f)
                      ++ [job_of (length (job_history (load_jobs f))) s])
                   (job_history (load_jobs f)
                      ++ [job_of (length (job_history (load_jobs f))) s]))
    by done.
  rewrite Hs. simpl. rewrite length_app, Nat.add_0_r. simpl.
  rewrite <- !(assoc_L (++)). simpl.
  assert (Himap : imap (λ i, job_of
                    (length (job_history (load_jobs f)) + 1 + i)) subs
                  = imap ((λ i, job_of
                    (length (job_history (load_jobs f)) + i)) ∘ S) subs).
  { apply imap_ext. intros i x _. simpl. f_equal. lia. }
  by rewrite Himap.
Qed.

(** X21: submissions made one after the other on a missing file are
    numbered 1, 2, 3, ... in the order they were made, and Queue and
    History both hold exactly these jobs, in that order. *)
Theorem submissions_are_numbered (subs : list submission) :
  load_jobs (foldl submit None subs)
  = mkStore (imap job_of subs) (imap job_of subs) ∧
  ids (imap job_of subs)
  = (λ i, Z.of_nat i + 1)%Z <$> seq 0 (length subs).
Proof.
  split.
  - rewrite submit_all_history. simpl. done.
  - unfold ids.
    assert (H : ∀ n, job_id <$> imap (λ i, job_of (n + i)) subs
              = (λ i, Z.of_nat i + 1)%Z <$> seq n (length subs)).
    { induction subs as [|s subs IH]; intros n; [done|].
      simpl. rewrite Nat.add_0_r. f_equal.
      rewrite <- IH. f_equal. apply imap_ext. intros i x _. simpl.
      f_equal. lia. }
    apply (H 0).
Qed.

(** ** The progress bar *)

Lemma length_append (s1 s2 : string) :
  String.length (s1 +:+ s2) = String.length s1 + String.length s2.
Proof. induction s1 as [|a s1 IH]; simpl; [done|]. by rewrite IH. Qed.

Lemma str_mul_length (s : string) (n : Z) :
  String.length (str_mul s n) = Z.to_nat n * String.length s.
Proof.
  unfold str_mul. induction (Z.to_nat n) as [|k IH]; [done|].
  simpl. rewrite length_append, IH. lia.
Qed.

Lemma list_ascii_of_append (s1 s2 : string) :
  String.list_ascii_of_string (s1 +:+ s2)
  = String.list_ascii_of_string s1 ++ String.list_ascii_of_string s2.
Proof. induction s1 as [|a s1 IH]; simpl; [done|]. by rewrite IH. Qed.

Lemma list_ascii_of_str_mul (c : Ascii.ascii) (n : Z) :
  String.list_ascii_of_string (str_mul (String c EmptyString) n)
  = replicate (Z.to_nat n) c.
Proof.
  unfold str_mul. induction (Z.to_nat n) as [|k IH]; [done|].
  simpl. f_equal. exact IH.
Qed.

(** X22: the bar is, character for character, an opening bracket, then
    [max 0 bar_width] hashes, then [max 0 (width - bar_width)] dashes, then
    a closing bracket; so it is [width + 2] characters long exactly when
    [0 <= bar_width <= width], and longer otherwise. *)
Theorem draw_progress_bar_shape (bar_width width : Z) :
  let n := Z.of_nat (String.length (draw_progress_bar bar_width width)) in
  String.list_ascii_of_string (draw_progress_bar bar_width width)
    = ["["%char]
        ++ replicate (Z.to_nat (Z.max 0 bar_width)) "#"%char
        ++ replicate (Z.to_nat (Z.max 0 (width - bar_width))) "-"%char
        ++ ["]"%char] ∧
  (n = 2 + Z.max 0 bar_width + Z.max 0 (width - bar_width))%Z ∧
  ((0 ≤ bar_width ≤ width)%Z ↔ n = (width + 2)%Z) ∧
  (width + 2 ≤ n)%Z.
Proof.
  simpl. split.
  - unfold draw_progress_bar.
    rewrite !list_ascii_of_append, !list_ascii_of_str_mul. simpl.
    do 2 f_equal; [f_equal; lia|]. f_equal. f_equal. lia.
  - unfold draw_progress_bar.
    rewrite !length_append, !str_mul_length. simpl. lia.
Qed.

(** ** The command line *)

Lemma argv_at_Some (argv : list string) (i : nat) (a : string) :
  argv !! i = Some a → argv_at argv i = inr a.
Proof. unfold argv_at. by intros ->. Qed.

Lemma main_command (int : string → option Z) (argv : list string)
    (command : string) :
  argv !! 1 = Some command →
  (length argv <? 2) = false ∧ argv_at argv 1 = inr command.
Proof.
  intros H. split; [|by apply argv_at_Some].
  apply Nat.ltb_ge. apply lookup_lt_Some in H. lia.
Qed.

(** X23: for [submit], the script calls [submit_job] exactly when the
    arguments 2 to 6 are there and the last three are integers for
    [int()], further arguments being ignored; otherwise it ends with an
    [IndexError] or a [ValueError] before any function is called, and
    [jobs.json] is not touched. *)
Theorem main_submit_validates (int : string → option Z)
    (argv : list string) :
  argv !! 1 = Some "submit" →
  (∀ u c p m k,
     main int argv = CallSubmit u c p m k ↔
     argv !! 2 = Some u ∧ argv !! 3 = Some c ∧
     argv !! 4 ≫= int = Some p ∧ argv !! 5 ≫= int = Some m ∧
     argv !! 6 ≫= int = Some k) ∧
  ((∃ u c p m k, main int argv = CallSubmit u c p m k) ∨
   (main int argv = Raise IndexError ∨ main int argv = Raise ValueError) ∧
   ∀ available popen polls returncode ps f,
     perform available popen polls returncode ps (main int argv) f = f).
Proof.
  intros Hcmd. destruct (main_command int argv _ Hcmd) as [Hlen Hat].
  unfold main. rewrite Hlen, Hat. cbn [bind_exn]. rewrite decide_True by done.
  unfold argv_at.
  destruct (argv !! 2) as [a2|]; cbn [bind_exn];
    [|split; [intros; split; [done|by intros [? _]]|right; by split; [left|]]].
  destruct (argv !! 3) as [a3|]; cbn [bind_exn];
    [|split; [intros; split; [done|by intros (_ & ? & _)]
             |right; by split; [left|]]].
  destruct (argv !! 4) as [a4|]; cbn [bind_exn mbind option_bind];
    [|split; [intros; split; [done|by intros (_ & _ & ? & _)]
             |right; by split; [left|]]].
  destruct (int a4) as [p4|]; cbn [bind_exn];
    [|split; [intros; split; [done|by intros (_ & _ & ? & _)]
             |right; by split; [right|]]].
  destruct (argv !! 5) as [a5|]; cbn [bind_exn mbind option_bind];
    [|split; [intros; split; [done|by intros (_ & _ & _ & ? & _)]
             |right; by split; [left|]]].
  destruct (int a5) as [p5|]; cbn [bind_exn];
    [|split; [intros; split; [done|by intros (_ & _ & _ & ? & _)]
             |right; by split; [right|]]].
  destruct (argv !! 6) as [a6|]; cbn [bind_exn mbind option_bind];
    [|split; [intros; split; [done|by intros (_ & _ & _ & _ & ?)]
             |right; by split; [left|]]].
  destruct (int a6) as [p6|]; cbn [bind_exn];
    [|split; [intros; split; [done|by intros (_ & _ & _ & _ & ?)]
             |right; by split; [right|]]].
  split; [|left; by eauto 10].
  intros u c p m k. split.
  - by intros [= -> -> -> -> ->].
  - by intros ([= ->] & [= ->] & [= ->] & [= ->] & [= ->]).
Qed.

Lemma main_submit_validates_witness :
  let int := λ _ : string, Some 7%Z in
  let argv := ["job_scheduler.py"; "submit"; "alice"; "true"] in
  (∃ u c p m k, main int argv = CallSubmit u c p m k) ∨
  (main int argv = Raise IndexError ∨ main int argv = Raise ValueError) ∧
  ∀ available popen polls returncode ps f,
    perform available popen polls returncode ps (main int argv) f = f.
Proof.
  intros int argv.
  apply (proj2 (main_submit_validates int argv eq_refl)).
Defined.

(** X24: [clear_jobs_by_status] is called only for a command line of
    exactly four words, [clear -s <status>] after the script name; any other
    command line whose command word is [clear] prints the usage and leaves
    [jobs.json] alone. *)
Theorem main_clear_shape (int : string → option Z) (argv : list string) :
  (∀ st, main int argv = CallClear st ↔
         ∃ prog, argv = [prog; "clear"; "-s"; st]) ∧
  (argv !! 1 = Some "clear" →
   (∀ st, main int argv ≠ CallClear st) →
   main int argv = PrintClearUsage ∧
   ∀ available popen polls returncode ps f,
     perform available popen polls returncode ps (main int argv) f = f).
Proof.
  assert (Hclear : argv !! 1 = Some "clear" →
            main int argv =
              if decide (length argv = 4 ∧ argv !! 2 = Some "-s") then
                match argv !! 3 with
                | Some st => CallClear st
                | None => Raise IndexError
                end
              else PrintClearUsage).
  { intros Hcmd. destruct (main_command int argv _ Hcmd) as [Hlen Hat].
    unfold main. rewrite Hlen, Hat. cbn [bind_exn].
    repeat (rewrite decide_False by done). rewrite decide_True by done.
    case_decide; [|done]. unfold argv_at. by destruct (argv !! 3). }
  split.
  - intros st. split.
    + intros Hmain.
      assert (Hcmd : argv !! 1 = Some "clear").
      { revert Hmain. unfold main.
        destruct (length argv <? 2) eqn:Hlen; [done|].
        unfold argv_at. destruct (argv !! 1) as [command|]; [|done].
        cbn [bind_exn].
        repeat (case_decide; [try done|]);
          try (by repeat (destruct (_ !! _); cbn [bind_exn];
                          [|done]; try (destruct (int _); cbn; [|done])));
          try by subst command. }
      rewrite (Hclear Hcmd) in Hmain.
      case_decide as Hshape; [|done]. destruct Hshape as [Hlen H2].
      destruct argv as [|prog [|a1 [|a2 [|a3 [|? ?]]]]]; try done.
      simpl in *. exists prog. by simplify_eq.
    + intros [prog ->]. by rewrite Hclear.
  - intros Hcmd Hnot. rewrite (Hclear Hcmd).
    case_decide as Hshape; [|done]. destruct Hshape as [Hlen H2].
    destruct (argv !! 3) as [st|] eqn:H3.
    + destruct (Hnot st). by apply Hclear.
    + apply lookup_ge_None in H3. lia.
Qed.

Lemma main_clear_shape_witness :
  let int := λ _ : string, Some 7%Z in
  let argv := ["job_scheduler.py"; "clear"; "failed"] in
  main int argv = PrintClearUsage ∧
  ∀ available popen polls returncode ps f,
    perform available popen polls returncode ps (main int argv) f = f.
Proof.
  intros int argv.
  apply (proj2 (main_clear_shape int argv)); [reflexivity|].
  intros st. discriminate.
Defined.

(** ** Invocations one after the other *)

Lemma filter_none {A : Type} (P : A → Prop) `{!∀ x, Decision (P x)}
    (l : list A) :
  Forall (λ x, ¬ P x) l → filter P l = [].
Proof.
  induction 1 as [|x l Hx _ IH]; [done|]. by rewrite filter_cons_False.
Qed.

Lemma sweep_other_ids ps (id : Z) (h : list Job) :
  filter (λ j, job_id j = id) (sweep ps (filter (λ j, job_id j ≠ id) h)) = [].
Proof.
  apply filter_none, Forall_forall.
  intros j (j0 & [Hne _]%list_elem_of_filter & -> & _)%sweep_elem.
  by rewrite reconcile_job_id.
Qed.

Lemma checkpoints_change_nothing (job : Job) (q h : list Job) (n : nat) :
  Nat.iter n (run_next_checkpoint job) (save_jobs q (replace_history job h))
  = save_jobs q (replace_history job h).
Proof.
  induction n as [|n IH]; [done|].
  simpl. rewrite IH. unfold run_next_checkpoint. simpl.
  by rewrite replace_history_twice.
Qed.

(** X25: a job that was launched and has exited with code zero has no
    History entry after the next reconcile; one that exited with another
    code has exactly one, with status failed and no pid, whatever the
    process table says. *)
Theorem run_then_reconcile (available : Z) (popen : string → popen_result)
    (polls : nat) (returncode : Z) (ps : Z → process_lookup)
    (f : jobs_file) (job : Job) (q h : list Job) (p : Z) :
  load_jobs f = mkStore (job :: q) h →
  (memory job <= available)%Z →
  popen (command job) = Spawned p →
  let f' := update_job_status ps
              (run_next_job available popen polls returncode f) in
  job_queue (load_jobs f') = q ∧
  (returncode = 0%Z →
   filter (λ j, job_id j = job_id job) (job_history (load_jobs f')) = []) ∧
  (returncode ≠ 0%Z →
   filter (λ j, job_id j = job_id job) (job_history (load_jobs f'))
     = [mkJob (job_id job) (user job) (command job) (priority job)
              (memory job) (compute job) "failed" None]).
Proof.
  intros Hload Hmem Hpopen. simpl.
  assert (Hrun : run_next_job available popen polls returncode f
                 = save_jobs q (replace_history
                     (final_job returncode
                        (set_pid (Some p) (set_status "running" job))) h)).
  { assert (Hadmit : outcome (run_next_admit available popen f)
              = Dispatched (set_pid (Some p) (set_status "running" job))).
    { unfold run_next_admit. rewrite Hload. simpl.
      destruct (Z.geb_spec available (memory job)); [|lia].
      by rewrite Hpopen. }
    unfold run_next_job. rewrite Hadmit.
    assert (Hfile : file_after (run_next_admit available popen f)
              = save_jobs q (replace_history
                  (set_pid (Some p) (set_status "running" job)) h)).
    { unfold run_next_admit. rewrite Hload. simpl.
      destruct (Z.geb_spec available (memory job)); [|lia].
      by rewrite Hpopen. }
    rewrite Hfile, checkpoints_change_nothing.
    unfold run_next_finalize. simpl. by rewrite replace_history_twice. }
  rewrite Hrun. simpl. split; [done|].
  unfold replace_history. rewrite sweep_app, filter_app.
  change (job_id (final_job returncode
            (set_pid (Some p) (set_status "running" job))))
    with (job_id job).
  rewrite sweep_other_ids. simpl.
  unfold reconcile_job. simpl.
  destruct (Z.eqb_spec returncode 0) as [->|Hrc]; simpl.
  - split; [done|]. intros Hne. by destruct Hne.
  - split; [done|]. intros _. rewrite filter_cons_True by done.
    unfold final_job. simpl.
    by destruct (Z.eqb_spec returncode 0).
Qed.

Lemma run_then_reconcile_witness :
  let a := Job_init 1 "alice" "true" 1 1048576 10 in
  let f' := update_job_status (λ _, NoSuchProcess)
              (run_next_job 1073741824 (λ _, Spawned 4242) 3 0
                 (save_jobs [a] [a])) in
  job_queue (load_jobs f') = [] ∧
  (0%Z = 0%Z →
   filter (λ j, job_id j = job_id a) (job_history (load_jobs f')) = []) ∧
  (0%Z ≠ 0%Z →
   filter (λ j, job_id j = job_id a) (job_history (load_jobs f'))
     = [mkJob (job_id a) (user a) (command a) (priority a)
              (memory a) (compute a) "failed" None]).
Proof.
  intros a.
  apply (run_then_reconcile 1073741824 (λ _, Spawned 4242) 3 0
           (λ _, NoSuchProcess) (save_jobs [a] [a]) a [] [a] 4242).
  - reflexivity.
  - simpl. lia.
  - reflexivity.
Defined.

(** X26: head-of-line blocking: while the head of the Queue declares more
    memory than is available, any number of runNext invocations leaves the
    Queue and History as they are; no job behind the head is dispatched. *)
Theorem run_next_blocked_forever (available : Z)
    (popen : string → popen_result) (polls : nat) (returncode : Z)
    (f : jobs_file) (job : Job) (q h : list Job) (n : nat) :
  load_jobs f = mkStore (job :: q) h →
  (memory job > available)%Z →
  load_jobs (Nat.iter n (run_next_job available popen polls returncode) f)
    = mkStore (job :: q) h.
Proof.
  intros Hload Hmem. induction n as [|n IH]; [done|].
  simpl. revert IH.
  generalize (Nat.iter n (run_next_job available popen polls returncode) f).
  intros g Hg. unfold run_next_job, run_next_admit. rewrite Hg. simpl.
  by destruct (Z.geb_spec available (memory job)); [lia|].
Qed.

Lemma run_next_blocked_forever_witness :
  let big := mkJob 1 "alice" "sort huge.txt" 1 8000000000 10 "queued" None in
  let b := Job_init 2 "bob" "make" 2 2048 20 in
  load_jobs (Nat.iter 5 (run_next_job 1073741824 (λ _, Spawned 4242) 0 0)
                        (save_jobs [big; b] [big; b]))
    = mkStore [big; b] [big; b].
Proof.
  intros big b.
  apply (run_next_blocked_forever 1073741824 (λ _, Spawned 4242) 0 0
           (save_jobs [big; b] [big; b]) big [b] [big; b] 5).
  - reflexivity.
  - simpl. lia.
Defined.

(** X27: when every queued job fits in the available memory and every
    launch succeeds, [n] runNext invocations one after the other take the
    first [n] jobs of the Queue, in queue order, and leave the rest. *)
Theorem run_next_takes_in_order (available : Z)
    (popen : string → popen_result) (polls : nat) (returncode : Z)
    (f : jobs_file) (n : nat) :
  Forall (λ j, (memory j <= available)%Z) (job_queue (load_jobs f)) →
  (∀ c, popen c ≠ PopenRaises) →
  job_queue
    (load_jobs (Nat.iter n (run_next_job available popen polls returncode) f))
  = drop n (job_queue (load_jobs f)).
Proof.
  intros Hfit Hpopen. induction n as [|n IH]; [by rewrite drop_0|].
  simpl.
  assert (Hstep : ∀ g, Forall (λ j, (memory j <= available)%Z)
                         (job_queue (load_jobs g)) →
            job_queue (load_jobs
              (run_next_job available popen polls returncode g))
            = drop 1 (job_queue (load_jobs g))).
  { intros g Hg. unfold run_next_job, run_next_admit.
    destruct (job_queue (load_jobs g)) as [|job q] eqn:Hq; simpl.
    { by rewrite Hq. }
    apply Forall_cons in Hg as [Hjob _].
    destruct (Z.geb_spec available (memory job)); [|lia].
    simpl. destruct (popen (command job)) as [p|] eqn:Hp;
      [|by destruct (Hpopen _ Hp)].
    simpl. by rewrite checkpoints_change_nothing. }
  rewrite Hstep.
  - rewrite IH, drop_drop. f_equal. lia.
  - rewrite IH. apply Forall_drop, Hfit.
Qed.

Lemma run_next_takes_in_order_witness :
  let a := Job_init 1 "alice" "true" 1 1048576 10 in
  let b := Job_init 2 "bob" "make" 2 2048 20 in
  let c := Job_init 3 "carol" "ls" 3 4096 30 in
  job_queue
    (load_jobs (Nat.iter 2 (run_next_job 1073741824 (λ _, Spawned 4242) 1 0)
                           (save_jobs [a; b; c] [a; b; c])))
  = drop 2 [a; b; c].
Proof.
  intros a b c.
  apply (run_next_takes_in_order 1073741824 (λ _, Spawned 4242) 1 0
           (save_jobs [a; b; c] [a; b; c]) 2).
  - simpl. repeat constructor; simpl; lia.
  - discriminate.
Defined.
